(** * EGM96 geoid undulation: the synthesis pipeline of [EGM96.hpp]

    A shallow embedding of class [EGM96] and the properties of its
    spherical-harmonic synthesis.

    Conventions of the embedding.
    - [double] values are real numbers ([R]): the arithmetic of the source
      is read with exact-real semantics, rounding is not modelled.
      Division and [sqrt] are the total functions of the real-number
      library.  The one place where the source can divide by a quantity
      that is zero in exact arithmetic is the quotient
      [z / sqrt (x * x + y * y)] of [computeGeocentricMetrics] where
      [cos lat = 0], that is at the latitudes [+90°] and [-90°]: there
      the quotient of the real numbers is not the one of IEEE
      arithmetic.  The theorems about a query are stated in terms of
      the three results of [computeGeocentricMetrics], whatever they
      are; what is stated of the entry point at these two latitudes is
      only that the call returns, how the values of two calls are
      related, and the value for the all-zero table, which does not
      involve the quotient.
    - [u32] values are integers ([Z]); every arithmetic operation on them
      wraps modulo [2^32] as in the source.
    - A C array is a capacity together with a finite map from indices to
      the cells that have been written.  Reading a cell that was never
      written, or touching an index outside the capacity, is undefined
      behaviour in the source; here it makes the computation return
      [None].  A computation that returns [Some v] therefore read only
      cells that had been written before, within bounds.
    - A [for] loop is [for_loop lo hi body], the body threading the
      variables the loop updates. *)

From Stdlib Require Import ZArith Reals Lia Lra.
From stdpp Require Import base option gmap.

Local Open Scope Z_scope.

(** ** Unsigned 32-bit arithmetic ([using u32 = uint32_t]) *)

Module U32.
Definition modulus : Z := 2 ^ 32.
Definition wrap (z : Z) : Z := z mod modulus.
Definition add (a b : Z) : Z := wrap (a + b).
Definition sub (a b : Z) : Z := wrap (a - b).
Definition mul (a b : Z) : Z := wrap (a * b).
Definition div (a b : Z) : Z := a / b.
End U32.

Infix "⊕" := U32.add (at level 50, left associativity).
Infix "⊖" := U32.sub (at level 50, left associativity).
Infix "⊗" := U32.mul (at level 40, left associativity).
Infix "⊘" := U32.div (at level 40, left associativity).

(** ** Arrays of doubles *)

Record array := Array { cap : Z; cells : gmap Z R }.

(** [double a[n];] without initialiser: no cell has been written. *)
Definition uninit (n : Z) : array := Array n ∅.

(** [a[i]] as an rvalue. *)
Definition load (a : array) (i : Z) : option R :=
  if decide (0 ≤ i < cap a) then cells a !! i else None.

(** The array [a] after cell [i] received [v]. *)
Definition upd (a : array) (i : Z) (v : R) : array :=
  Array (cap a) (<[i := v]> (cells a)).

(** [a[i] = v]. *)
Definition store (a : array) (i : Z) (v : R) : option array :=
  if decide (0 ≤ i < cap a) then Some (upd a i v) else None.

(** ** Counted loops: [for (u32 i = lo; i <= hi; i++) body] *)

Fixpoint iterate {S : Type} (count : nat) (i : Z)
    (body : Z → S → option S) (s : S) : option S :=
  match count with
  | O => Some s
  | Datatypes.S c => s' ← body i s; iterate c (i + 1) body s'
  end.

Definition for_loop {S : Type} (lo hi : Z)
    (body : Z → S → option S) (s : S) : option S :=
  iterate (Z.to_nat (hi + 1 - lo)) lo body s.

(** ** The class: constants, members and constructor *)

Definition coeffsCount : Z := 65342.
Definition maxDeg : Z := 360.
Definition WGS84GravitationalConstant : R := 0.3986004418e15.
Definition WGS84DatumSurfaceEquatorialRadius : R := 6378137.0.
Definition M_PI : R := PI.

Record EGM96 := { drts : array; dirt : array }.

Definition EGM96_ctor_body (n : Z) (self : EGM96) : option EGM96 :=
  drts' ← store (drts self) n (sqrt (IZR n));
  d ← load drts' n;
  dirt' ← store (dirt self) n (1 / d);
  Some {| drts := drts'; dirt := dirt' |}.

Definition EGM96_new : option EGM96 :=
  let nmax2p := (2 ⊗ maxDeg) ⊕ 1 in
  for_loop 1 nmax2p EGM96_ctor_body
    {| drts := uninit 1301; dirt := uninit 1301 |}.

(** ** The synthesis pipeline *)

Section Pipeline.

(** [egm96Data[k][c]] of [egm96Data.hpp]: the table of published
    coefficients, [coeffsCount] rows of four doubles.  The header is data
    only; the pipeline is stated for any table. *)
Variable egm96Data : Z → Z → R.

(** *** [calculateGravitationalUndulation] *)

(** Body of the loop over the orders [m = 1..n]; the loop updates
    [k], [sumc] and [sum]. *)
Definition order_body (p sinml cosml : array) (m : Z)
    (st : Z * R * R) : option (Z * R * R) :=
  let '(k, sumc, sum) := st in
  let k := k ⊕ 1 in
  cm ← load cosml m;
  sm ← load sinml m;
  let tempc := (egm96Data k 0 * cm + egm96Data k 1 * sm)%R in
  let temp := (egm96Data k 2 * cm + egm96Data k 3 * sm)%R in
  pk ← load p k;
  Some (k, (sumc + pk * tempc)%R, (sum + pk * temp)%R).

(** Body of the loop over the degrees [n = 2..maxDeg]; the loop updates
    [k], [arn], [ac] and [a]. *)
Definition degree_body (p sinml cosml : array) (ar : R) (n : Z)
    (st : Z * R * R * R) : option (Z * R * R * R) :=
  let '(k, arn, ac, a) := st in
  let arn := (arn * ar)%R in
  let k := k ⊕ 1 in
  pk ← load p k;
  let sum := (pk * egm96Data k 2)%R in
  let sumc := (pk * egm96Data k 0)%R in
  '(k, sumc, sum) ← for_loop 1 n (order_body p sinml cosml) (k, sumc, sum);
  Some (k, arn, (ac + sumc)%R, (a + sum * arn)%R).

(** The loop nest, from [u32 k = 3] on. *)
Definition synthesis_loop (p sinml cosml : array) (ar : R)
    : option (Z * R * R * R) :=
  for_loop 2 maxDeg (degree_body p sinml cosml ar) (3, ar, 0%R, 0%R).

Definition calculateGravitationalUndulation (p sinml cosml : array)
    (gr re : R) : option R :=
  let ar := (WGS84DatumSurfaceEquatorialRadius / re)%R in
  '(_, _, ac, a) ← synthesis_loop p sinml cosml ar;
  p2 ← load p 2;
  p3 ← load p 3;
  c1 ← load cosml 1;
  s1 ← load sinml 1;
  let ac := (ac + (egm96Data 1 0 + p2 * egm96Data 2 0
                   + p3 * (egm96Data 3 0 * c1 + egm96Data 3 1 * s1)))%R in
  Some (a * WGS84GravitationalConstant / (gr * re) + ac / 100.0 - 0.53)%R.

(** *** [computeTrigonometricSeriesForLongitude] *)

Definition trig_body (b : R) (m : Z) (st : array * array)
    : option (array * array) :=
  let '(sinml, cosml) := st in
  s1 ← load sinml (m ⊖ 1);
  s2 ← load sinml (m ⊖ 2);
  sinml ← store sinml m (2 * b * s1 - s2);
  c1 ← load cosml (m ⊖ 1);
  c2 ← load cosml (m ⊖ 2);
  cosml ← store cosml m (2 * b * c1 - c2);
  Some (sinml, cosml).

Definition computeTrigonometricSeriesForLongitude (rlon : R)
    (sinml cosml : array) : option (array * array) :=
  let a := sin rlon in
  let b := cos rlon in
  sinml ← store sinml 1 a;
  cosml ← store cosml 1 b;
  sinml ← store sinml 2 (2 * b * a);
  cosml ← store cosml 2 (2 * b * b - 1);
  for_loop 3 maxDeg (trig_body b) (sinml, cosml).

(** *** [computeNormalizedLegendreFunctions] *)

(** The guard of the [continue] in the recurrence loop:
    [(!m && n < 2) || (m == 1 && n < 3)]. *)
Definition skip_guard (m n : Z) : bool :=
  (Z.eqb m 0 && Z.ltb n 2) || (Z.eqb m 1 && Z.ltb n 3).

(** Body of the sectoral loop [n1 = 3..m1] over [rlnn]. *)
Definition sectoral_body (self : EGM96) (sithet : R) (n1 : Z)
    (rlnn : array) : option array :=
  let n := n1 ⊖ 1 in
  let n2 := 2 ⊗ n in
  d1 ← load (drts self) (n2 ⊕ 1);
  d2 ← load (dirt self) n2;
  r ← load rlnn n;
  store rlnn n1 (d1 * d2 * sithet * r).

(** Body of the recurrence loop [n1 = m3..nmax1] over [rleg]. *)
Definition recurrence_body (self : EGM96) (m : Z) (cothet : R) (n1 : Z)
    (rleg : array) : option array :=
  let n := n1 ⊖ 1 in
  if skip_guard m n then Some rleg
  else
    let n2 := 2 ⊗ n in
    d1 ← load (drts self) (n2 ⊕ 1);
    d2 ← load (dirt self) (n ⊕ m);
    d3 ← load (dirt self) (n ⊖ m);
    d4 ← load (drts self) (n2 ⊖ 1);
    r1 ← load rleg (n1 ⊖ 1);
    d5 ← load (drts self) (n ⊕ m ⊖ 1);
    d6 ← load (drts self) (n ⊖ m ⊖ 1);
    d7 ← load (dirt self) (n2 ⊖ 3);
    r2 ← load rleg (n1 ⊖ 2);
    store rleg n1 (d1 * d2 * d3 * (d4 * cothet * r1 - d5 * d6 * d7 * r2)).

(** The [switch (m)] between the two loops: cases [1] and [0], no
    [default]. *)
Definition base_cases (self : EGM96) (m : Z) (cothet : R)
    (rlnn rleg : array) : option array :=
  match m with
  | 1 =>
      r ← load rlnn 2;
      rleg ← store rleg 2 r;
      d5 ← load (drts self) 5;
      r2 ← load rleg 2;
      store rleg 3 (d5 * cothet * r2)
  | 0 =>
      rleg ← store rleg 1 1;
      d3 ← load (drts self) 3;
      store rleg 2 (cothet * d3)
  | _ => Some rleg
  end.

Definition computeNormalizedLegendreFunctions (self : EGM96) (m : Z)
    (theta : R) (rleg : array) : option array :=
  let rlnn := uninit (maxDeg ⊕ 2) in
  let nmax1 := maxDeg ⊕ 1 in
  let m1 := m ⊕ 1 in
  let m2 := m ⊕ 2 in
  let m3 := m ⊕ 3 in
  let cothet := cos theta in
  let sithet := sin theta in
  rlnn ← store rlnn 1 1;
  d3 ← load (drts self) 3;
  rlnn ← store rlnn 2 (sithet * d3);
  rlnn ← for_loop 3 m1 (sectoral_body self sithet) rlnn;
  rleg ← base_cases self m cothet rlnn rleg;
  r ← load rlnn m1;
  rleg ← store rleg m1 r;
  if decide (m2 ≤ nmax1) then
    d ← load (drts self) (m1 ⊗ 2 ⊕ 1);
    r1 ← load rleg m1;
    rleg ← store rleg m2 (d * cothet * r1);
    if decide (m3 ≤ nmax1) then
      for_loop m3 nmax1 (recurrence_body self m cothet) rleg
    else Some rleg
  else Some rleg.

(** *** [computeGeocentricMetrics] *)

(** The three results [*rlat], [*gr], [*re] are returned as a triple. *)
Definition computeGeocentricMetrics (lat lon : R) : R * R * R :=
  let a := 6378137.0%R in
  let e2 := 0.00669437999013%R in
  let geqt := 9.7803253359%R in
  let k := 0.00193185265246%R in
  let t1 := (sin lat * sin lat)%R in
  let n := (a / sqrt (1.0 - e2 * t1))%R in
  let t2 := (n * cos lat)%R in
  let x := (t2 * cos lon)%R in
  let y := (t2 * sin lon)%R in
  let z := (n * (1 - e2) * sin lat)%R in
  let re := sqrt (x * x + y * y + z * z) in
  let rlat := atan (z / sqrt (x * x + y * y)) in
  let gr := (geqt * (1 + k * t1) / sqrt (1 - e2 * t1))%R in
  (rlat, gr, re).

(** *** [calculateGeoidUndulationAtCoordinates] *)

(** The index expression [(((i - 1) * i) / 2) + m + 1] of the scatter
    loop. *)
Definition idx (i m : Z) : Z := (i ⊖ 1) ⊗ i ⊘ 2 ⊕ m ⊕ 1.

Definition scatter_body (rleg : array) (m : Z) (i : Z) (p : array)
    : option array :=
  r ← load rleg i;
  store p (idx i m) r.

Definition order_fill_body (self : EGM96) (rlat : R) (nmax1 : Z) (j : Z)
    (st : array * array) : option (array * array) :=
  let '(p, rleg) := st in
  let m := j ⊖ 1 in
  rleg ← computeNormalizedLegendreFunctions self m rlat rleg;
  p ← for_loop j nmax1 (scatter_body rleg m) p;
  Some (p, rleg).

Definition calculateGeoidUndulationAtCoordinates (self : EGM96)
    (lat lon : R) : option R :=
  let p := uninit coeffsCount in
  let sinml := uninit (maxDeg ⊕ 2) in
  let cosml := uninit (maxDeg ⊕ 2) in
  let rleg := uninit (maxDeg ⊕ 2) in
  let nmax1 := maxDeg ⊕ 1 in
  let '(rlat, gr, re) := computeGeocentricMetrics lat lon in
  let rlat := (M_PI / 2 - rlat)%R in
  '(p, _) ← for_loop 1 nmax1 (order_fill_body self rlat nmax1) (p, rleg);
  '(sinml, cosml) ← computeTrigonometricSeriesForLongitude lon sinml cosml;
  calculateGravitationalUndulation p sinml cosml gr re.

(** *** [egm96ComputeAltitudeOffset], the public entry point

    The method is not [const]: the object after the call is returned with
    the result.  The body assigns no member. *)
Definition egm96ComputeAltitudeOffset (self : EGM96) (lat lon : R)
    : option (R * EGM96) :=
  let rad := (180.0 / M_PI)%R in
  v ← calculateGeoidUndulationAtCoordinates self (lat / rad) (lon / rad);
  Some (v, self).

End Pipeline.

(** ** Reference definitions

    The quantities the source computes, written as mathematical
    functions of degree and order; the pipeline is compared with them
    below. *)

(** The tables as the constructor leaves them: cells [1..721] hold
    [sqrt n] and [1 / sqrt n], no other cell is written. *)
Definition tables_built (self : EGM96) : Prop :=
  cap (drts self) = 1301 ∧ cap (dirt self) = 1301 ∧
  ∀ i : Z,
    load (drts self) i
      = (if decide (1 ≤ i ≤ 721) then Some (sqrt (IZR i)) else None) ∧
    load (dirt self) i
      = (if decide (1 ≤ i ≤ 721) then Some (1 / sqrt (IZR i))%R else None).

(** [rlnn[k + 1]], the sectoral value of order [k], as the sectoral loop
    builds it from the table entries [sqrt n] and [1 / sqrt n]. *)
Fixpoint sectoral (sithet : R) (k : nat) : R :=
  match k with
  | O => 1
  | Datatypes.S k' =>
      match k' with
      | O => (sithet * sqrt 3)%R
      | Datatypes.S _ =>
          (sqrt (IZR (2 * Z.of_nat k + 1)) * (1 / sqrt (IZR (2 * Z.of_nat k)))
           * sithet * sectoral sithet k')%R
      end
  end.

(** The right-hand side of the assignment in the recurrence loop, for
    degree [n] and order [m], from the two previous values. *)
Definition recurrence (m n : Z) (cothet r1 r2 : R) : R :=
  (sqrt (IZR (2 * n + 1)) * (1 / sqrt (IZR (n + m))) * (1 / sqrt (IZR (n - m)))
   * (sqrt (IZR (2 * n - 1)) * cothet * r1
      - sqrt (IZR (n + m - 1)) * sqrt (IZR (n - m - 1))
        * (1 / sqrt (IZR (2 * n - 3))) * r2))%R.

(** The values of degrees [m + j] and [m + j - 1], order [m]. *)
Fixpoint legendre_pair (theta : R) (m : Z) (j : nat) : R * R :=
  match j with
  | O => (sectoral (sin theta) (Z.to_nat m), 0%R)
  | Datatypes.S j' =>
      let '(r1, r2) := legendre_pair theta m j' in
      (match j' with
       | O => (sqrt (IZR ((m + 1) * 2 + 1)) * cos theta * r1)%R
       | Datatypes.S _ => recurrence m (m + Z.of_nat j) (cos theta) r1 r2
       end, r1)
  end.

(** The normalized associated Legendre value of order [m] and degree
    [n], [m ≤ n]: what [rleg[n + 1]] holds after
    [computeNormalizedLegendreFunctions(m, theta, rleg)]. *)
Definition Pbar (theta : R) (m n : Z) : R :=
  fst (legendre_pair theta m (Z.to_nat (n - m))).

(** The cell of the triangular buffer for degree [n] and order [m],
    [0 ≤ m ≤ n]: row [n] starts after the [n (n + 1) / 2] cells of the
    rows before it, and cell [0] is unused. *)
Definition nm_index (n m : Z) : Z := n * (n + 1) / 2 + m + 1.

(** [big_sum lo hi f] is [f lo + ... + f hi], accumulated in this order
    from [0]. *)
Fixpoint sum_n (count : nat) (lo : Z) (f : Z → R) : R :=
  match count with
  | O => 0%R
  | Datatypes.S c => (sum_n c lo f + f (lo + Z.of_nat c)%Z)%R
  end.

Definition big_sum (lo hi : Z) (f : Z → R) : R :=
  sum_n (Z.to_nat (hi + 1 - lo)) lo f.

(** The closed form of the synthesis, for Legendre values [L n m] (degree
    [n], order [m]) and longitude series [C m], [S m]. *)
Section ClosedForm.

Variable egm96Data : Z → Z → R.
Variable L : Z → Z → R.
Variables C S : Z → R.

Definition main_term (n m : Z) : R :=
  L n m * (egm96Data (nm_index n m) 2 * C m + egm96Data (nm_index n m) 3 * S m).

Definition correction_term (n m : Z) : R :=
  L n m * (egm96Data (nm_index n m) 0 * C m + egm96Data (nm_index n m) 1 * S m).

(** The contribution of degree [n]: the order-0 term, whose cosine is [1]
    and whose sine is [0], and the terms of orders [1..n]. *)
Definition main_degree (n : Z) : R :=
  L n 0 * egm96Data (nm_index n 0) 2 + big_sum 1 n (main_term n).

Definition correction_degree (n : Z) : R :=
  L n 0 * egm96Data (nm_index n 0) 0 + big_sum 1 n (correction_term n).

Definition main_sum (ar : R) : R :=
  big_sum 2 360 (λ n, main_degree n * ar ^ Z.to_nat n)%R.

Definition reference_terms : R :=
  egm96Data 1 0 + L 1 0 * egm96Data 2 0
  + L 1 1 * (egm96Data 3 0 * C 1 + egm96Data 3 1 * S 1).

Definition correction_sum : R :=
  big_sum 2 360 correction_degree + reference_terms.

Definition undulation_value (gr re : R) : R :=
  main_sum (6378137 / re) * 0.3986004418e15 / (gr * re)
  + correction_sum / 100 - 0.53.

End ClosedForm.

(** The three results of [computeGeocentricMetrics] as a query uses
    them: the colatitude [(M_PI / 2) - rlat], [gr] and [re]. *)
Definition colatitude (lat lon : R) : R :=
  (M_PI / 2 - (computeGeocentricMetrics lat lon).1.1)%R.

Definition normal_gravity (lat lon : R) : R :=
  (computeGeocentricMetrics lat lon).1.2.

Definition geocentric_radius (lat lon : R) : R :=
  (computeGeocentricMetrics lat lon).2.

(** The value of a query at [lat], [lon] (radians), in closed form. *)
Definition geoid_undulation (egm96Data : Z → Z → R) (lat lon : R) : R :=
  undulation_value egm96Data
    (λ n m, Pbar (colatitude lat lon) m n)
    (λ m, cos (IZR m * lon)) (λ m, sin (IZR m * lon))
    (normal_gravity lat lon) (geocentric_radius lat lon).

(** A table whose coefficients are all zero, for concrete runs. *)
Definition zero_table : Z → Z → R := λ _ _, 0%R.

(** A caller that queries the same coordinates twice on one object, the
    second call on the object the first call left. *)
Definition query_twice (egm96Data : Z → Z → R) (self : EGM96)
    (lat lon : R) : option (R * R * EGM96) :=
  '(v1, self1) ← egm96ComputeAltitudeOffset egm96Data self lat lon;
  '(v2, self2) ← egm96ComputeAltitudeOffset egm96Data self1 lat lon;
  Some (v1, v2, self2).

(** [a'] has the capacity of [a] and the same cells below [b]. *)
Definition same_below (b : Z) (a a' : array) : Prop :=
  cap a' = cap a ∧ ∀ i, i < b → load a' i = load a i.

(** The longitude normalized modulo 360° into [[0°, 360°)]: the
    reduction the entry point is compared with below.  The source has no
    such step. *)
Definition longitude_mod_360 (lon : R) : R :=
  (lon - 360 * IZR (Int_part (lon / 360)))%R.

(** ** Facts about the building blocks *)

Example u32_sub_wraps : 0 ⊖ 1 = 4294967295.
Proof. reflexivity. Qed.

Example idx_first : idx 1 0 = 1.
Proof. reflexivity. Qed.

Example idx_last : idx 361 360 = 65341.
Proof. reflexivity. Qed.

Example idx_360_360 : idx 360 360 = 64981.
Proof. reflexivity. Qed.

Example skip_guard_order_0_degree_1 : skip_guard 0 1 = true.
Proof. reflexivity. Qed.

Example skip_guard_order_0_degree_2 : skip_guard 0 2 = false.
Proof. reflexivity. Qed.

Example skip_guard_order_1_degree_3 : skip_guard 1 3 = false.
Proof. reflexivity. Qed.

(** Rewrites every wrapped operation whose operands are in range into the
    plain integer operation. *)
Ltac u32_simpl :=
  unfold U32.add, U32.sub, U32.mul, U32.div, U32.wrap, U32.modulus;
  change (2 ^ 32) with 4294967296;
  repeat match goal with
    | |- context [?a mod 4294967296] =>
        lazymatch a with
        | context [_ mod _] => fail
        | _ => rewrite (Z.mod_small a 4294967296) by (lia || nia)
        end
    end.

Lemma cap_upd a i v : cap (upd a i v) = cap a.
Proof. reflexivity. Qed.

Lemma store_ok a i v : 0 ≤ i < cap a → store a i v = Some (upd a i v).
Proof. intros H. unfold store. rewrite decide_True by exact H. reflexivity. Qed.

Lemma load_upd_eq a i v : 0 ≤ i < cap a → load (upd a i v) i = Some v.
Proof.
  intros H. unfold load, upd; simpl.
  rewrite decide_True by exact H. apply lookup_insert_eq.
Qed.

Lemma load_upd_ne a i j v : i ≠ j → load (upd a i v) j = load a j.
Proof.
  intros H. unfold load, upd; simpl.
  destruct (decide (0 ≤ j < cap a)); [|reflexivity].
  apply lookup_insert_ne. exact H.
Qed.

Lemma load_uninit n i : load (uninit n) i = None.
Proof. unfold load, uninit; simpl. destruct (decide _); reflexivity. Qed.

(** *** Loops *)

Lemma for_loop_empty {S : Type} lo hi (body : Z → S → option S) s :
  hi < lo → for_loop lo hi body s = Some s.
Proof.
  intros H. unfold for_loop.
  replace (Z.to_nat (hi + 1 - lo)) with O by lia. reflexivity.
Qed.

(** The loop rule: an invariant that every iteration re-establishes,
    each iteration returning, holds when the loop ends, and the loop
    returns. *)
Lemma for_loop_invariant {S : Type} (I : Z → S → Prop) lo hi
    (body : Z → S → option S) s :
  lo ≤ hi + 1 →
  I lo s →
  (∀ i t, lo ≤ i ≤ hi → I i t → ∃ t', body i t = Some t' ∧ I (i + 1) t') →
  ∃ s', for_loop lo hi body s = Some s' ∧ I (hi + 1) s'.
Proof.
  intros Hle H0 Hstep. unfold for_loop.
  remember (Z.to_nat (hi + 1 - lo)) as c eqn:Hc.
  revert lo s Hle H0 Hstep Hc. induction c as [|c IH]; intros lo s Hle H0 Hstep Hc.
  - exists s. split; [reflexivity|]. replace (hi + 1) with lo by lia. exact H0.
  - destruct (Hstep lo s ltac:(lia) H0) as (t & Hb & Ht).
    simpl. rewrite Hb. simpl.
    apply IH; [lia | exact Ht | | lia].
    intros i u Hi. apply Hstep. lia.
Qed.

(** *** The constructor *)

Lemma nmax2p_value : 2 ⊗ maxDeg ⊕ 1 = 721.
Proof. reflexivity. Qed.

Lemma EGM96_new_built : ∃ self, EGM96_new = Some self ∧ tables_built self.
Proof.
  unfold EGM96_new. cbv zeta. rewrite nmax2p_value.
  pose (I := λ (n : Z) (self : EGM96),
    cap (drts self) = 1301 ∧ cap (dirt self) = 1301 ∧
    ∀ i : Z,
      load (drts self) i
        = (if decide (1 ≤ i < n) then Some (sqrt (IZR i)) else None) ∧
      load (dirt self) i
        = (if decide (1 ≤ i < n) then Some (1 / sqrt (IZR i))%R else None)).
  destruct (for_loop_invariant I 1 721 EGM96_ctor_body
              {| drts := uninit 1301; dirt := uninit 1301 |})
    as (self & Hrun & Hc1 & Hc2 & Hcells).
  - lia.
  - unfold I; cbn [drts dirt]. split; [reflexivity|]. split; [reflexivity|].
    intros i. rewrite !load_uninit. rewrite !decide_False by lia. split; reflexivity.
  - intros n self Hn (Hc1 & Hc2 & Hcells).
    unfold EGM96_ctor_body.
    rewrite store_ok by lia. cbn [mbind option_bind].
    rewrite load_upd_eq by lia. cbn [mbind option_bind].
    rewrite store_ok by lia. cbn [mbind option_bind].
    eexists. split; [reflexivity|].
    split; [exact Hc1|]. split; [exact Hc2|].
    intros i. cbn [drts dirt].
    destruct (decide (i = n)) as [->|Hne].
    + rewrite !load_upd_eq by lia. rewrite !decide_True by lia. split; reflexivity.
    + rewrite !load_upd_ne by congruence.
      destruct (Hcells i) as [-> ->].
      destruct (decide (1 ≤ i < n)), (decide (1 ≤ i < n + 1)); try lia; split; reflexivity.
  - exists self. split; [exact Hrun|].
    split; [exact Hc1|]. split; [exact Hc2|].
    intros i. destruct (Hcells i) as [-> ->].
    destruct (decide (1 ≤ i < 721 + 1)), (decide (1 ≤ i ≤ 721)); try lia; split; reflexivity.
Qed.

(** *** The Legendre recursion *)

Lemma load_drts self i :
  tables_built self → 1 ≤ i ≤ 721 → load (drts self) i = Some (sqrt (IZR i)).
Proof.
  intros (_ & _ & H) Hi. destruct (H i) as [-> _].
  rewrite decide_True by exact Hi. reflexivity.
Qed.

Lemma load_dirt self i :
  tables_built self → 1 ≤ i ≤ 721 →
  load (dirt self) i = Some (1 / sqrt (IZR i))%R.
Proof.
  intros (_ & _ & H) Hi. destruct (H i) as [_ ->].
  rewrite decide_True by exact Hi. reflexivity.
Qed.

Lemma sectoral_step sithet k :
  2 ≤ k →
  sectoral sithet (Z.to_nat k)
  = (sqrt (IZR (2 * k + 1)) * (1 / sqrt (IZR (2 * k))) * sithet
     * sectoral sithet (Z.to_nat (k - 1)))%R.
Proof.
  intros Hk.
  destruct (Z.to_nat k) as [|[|k'']] eqn:E; [lia | lia |].
  replace (Z.to_nat (k - 1)) with (Datatypes.S k'') by lia.
  change (sectoral sithet (Datatypes.S (Datatypes.S k'')))
    with (sqrt (IZR (2 * Z.of_nat (Datatypes.S (Datatypes.S k'')) + 1))
          * (1 / sqrt (IZR (2 * Z.of_nat (Datatypes.S (Datatypes.S k'')))))
          * sithet * sectoral sithet (Datatypes.S k''))%R.
  replace (Z.of_nat (Datatypes.S (Datatypes.S k''))) with k by lia.
  reflexivity.
Qed.

Lemma cap_uninit n : cap (uninit n) = n.
Proof. reflexivity. Qed.

(** One step of a computation: the next array access is resolved from
    what is known of the array. *)
Ltac access_rewrite mx :=
  lazymatch mx with
  | load (upd ?a ?i ?v) ?j =>
      first [ rewrite (load_upd_eq a i v) by (rewrite ?cap_upd, ?cap_uninit; lia)
            | rewrite (load_upd_ne a i j v) by lia ]
  | load (drts ?s) ?i => rewrite (load_drts s i) by (assumption || lia)
  | load (dirt ?s) ?i => rewrite (load_dirt s i) by (assumption || lia)
  | store ?a ?i ?v =>
      rewrite (store_ok a i v) by (rewrite ?cap_upd, ?cap_uninit; lia)
  end.

Ltac step :=
  match goal with
  | |- context [mbind _ ?mx] => access_rewrite mx
  | |- context [load ?a ?i] => access_rewrite (load a i)
  | |- context [store ?a ?i ?v] => access_rewrite (store a i v)
  end;
  cbn [mbind option_bind].

Lemma sectoral_loop self sithet m1 :
  tables_built self → 1 ≤ m1 ≤ 361 →
  ∃ rlnn,
    for_loop 3 m1 (sectoral_body self sithet)
      (upd (upd (uninit 362) 1 1) 2 (sithet * sqrt 3)) = Some rlnn
    ∧ cap rlnn = 362
    ∧ ∀ i, 1 ≤ i ≤ Z.max 2 m1 →
        load rlnn i = Some (sectoral sithet (Z.to_nat (i - 1))).
Proof.
  intros Ht Hm1.
  assert (Hinit : ∀ i, 1 ≤ i < 3 →
    load (upd (upd (uninit 362) 1 1) 2 (sithet * sqrt 3)) i
    = Some (sectoral sithet (Z.to_nat (i - 1)))).
  { intros i Hi. assert (i = 1 ∨ i = 2) as [-> | ->] by lia.
    - rewrite load_upd_ne by lia. rewrite load_upd_eq by (simpl; lia).
      reflexivity.
    - rewrite load_upd_eq by (simpl; lia). reflexivity. }
  destruct (Z_lt_le_dec m1 2) as [Hsmall | Hbig].
  - rewrite for_loop_empty by lia. eexists. split; [reflexivity|].
    split; [reflexivity|]. intros i Hi. apply Hinit. lia.
  - pose (I := λ (n1 : Z) (rlnn : array),
      cap rlnn = 362 ∧
      ∀ i, 1 ≤ i < n1 → load rlnn i = Some (sectoral sithet (Z.to_nat (i - 1)))).
    destruct (for_loop_invariant I 3 m1 (sectoral_body self sithet)
                (upd (upd (uninit 362) 1 1) 2 (sithet * sqrt 3)))
      as (rlnn & Hrun & Hcap & Hcells).
    + lia.
    + split; [reflexivity | exact Hinit].
    + intros n1 rlnn Hn1 [Hcap Hcells]. unfold sectoral_body. cbv zeta.
      u32_simpl. do 2 step. rewrite (Hcells (n1 - 1)) by lia.
      cbn [mbind option_bind]. step.
      eexists. split; [reflexivity|]. split; [exact Hcap|].
      intros i Hi. destruct (decide (i = n1)) as [->|Hne].
      * step. f_equal. rewrite (sectoral_step sithet (n1 - 1)) by lia.
        reflexivity.
      * step. apply Hcells. lia.
    + exists rlnn. split; [exact Hrun|]. split; [exact Hcap|].
      intros i Hi. apply Hcells. lia.
Qed.

Lemma legendre_pair_snd theta m j :
  snd (legendre_pair theta m (Datatypes.S j)) = fst (legendre_pair theta m j).
Proof. simpl. destruct (legendre_pair theta m j). reflexivity. Qed.

Lemma Pbar_seed theta m : Pbar theta m m = sectoral (sin theta) (Z.to_nat m).
Proof. unfold Pbar. replace (Z.to_nat (m - m)) with O by lia. reflexivity. Qed.

Lemma Pbar_next theta m :
  Pbar theta m (m + 1)
  = (sqrt (IZR ((m + 1) * 2 + 1)) * cos theta * Pbar theta m m)%R.
Proof.
  unfold Pbar. replace (Z.to_nat (m + 1 - m)) with 1%nat by lia.
  replace (Z.to_nat (m - m)) with O by lia. reflexivity.
Qed.

Lemma Pbar_rec theta m n :
  m + 2 ≤ n →
  Pbar theta m n
  = recurrence m n (cos theta) (Pbar theta m (n - 1)) (Pbar theta m (n - 2)).
Proof.
  intros Hn. unfold Pbar.
  destruct (Z.to_nat (n - m)) as [|[|j]] eqn:E; [lia | lia |].
  replace (Z.to_nat (n - 1 - m)) with (Datatypes.S j) by lia.
  replace (Z.to_nat (n - 2 - m)) with j by lia.
  rewrite <- (legendre_pair_snd theta m j).
  change (legendre_pair theta m (Datatypes.S (Datatypes.S j)))
    with (let '(r1, r2) := legendre_pair theta m (Datatypes.S j) in
          (recurrence m (m + Z.of_nat (Datatypes.S (Datatypes.S j)))
             (cos theta) r1 r2, r1)).
  destruct (legendre_pair theta m (Datatypes.S j)) as [r1 r2].
  cbn [fst snd]. f_equal. lia.
Qed.

Lemma skip_guard_false m n : 0 ≤ m → m + 2 ≤ n → skip_guard m n = false.
Proof.
  intros Hm Hn. unfold skip_guard.
  destruct (Z.eqb_spec m 0), (Z.eqb_spec m 1), (Z.ltb_spec n 2),
    (Z.ltb_spec n 3); simpl; try reflexivity; lia.
Qed.

Lemma base_cases_ok self m cothet rlnn rleg v :
  tables_built self → 0 ≤ m → cap rleg = 362 → load rlnn 2 = Some v →
  ∃ rleg', base_cases self m cothet rlnn rleg = Some rleg' ∧ cap rleg' = 362.
Proof.
  intros Ht Hm Hcap Hv. unfold base_cases.
  destruct m as [|[p|p|]|p]; try (eexists; split; [reflexivity | exact Hcap]).
  - do 3 step. eexists. split; [reflexivity | exact Hcap].
  - rewrite Hv. cbn [mbind option_bind]. do 4 step.
    eexists. split; [reflexivity | exact Hcap].
Qed.

Lemma recurrence_loop self theta m rleg :
  tables_built self → 0 ≤ m ≤ 358 → cap rleg = 362 →
  (∀ i, m + 1 ≤ i < m + 3 → load rleg i = Some (Pbar theta m (i - 1))) →
  ∃ rleg',
    for_loop (m + 3) 361 (recurrence_body self m (cos theta)) rleg = Some rleg'
    ∧ cap rleg' = 362
    ∧ ∀ i, m + 1 ≤ i ≤ 361 → load rleg' i = Some (Pbar theta m (i - 1)).
Proof.
  intros Ht Hm Hcap Hinit.
  pose (I := λ (n1 : Z) (rleg : array),
    cap rleg = 362 ∧
    ∀ i, m + 1 ≤ i < n1 → load rleg i = Some (Pbar theta m (i - 1))).
  destruct (for_loop_invariant I (m + 3) 361
              (recurrence_body self m (cos theta)) rleg)
    as (rleg' & Hrun & Hcap' & Hcells).
  - lia.
  - split; [exact Hcap | exact Hinit].
  - intros n1 t Hn1 [Hc Hcells]. unfold recurrence_body. cbv zeta.
    u32_simpl. rewrite skip_guard_false by lia.
    do 4 step. rewrite (Hcells (n1 - 1)) by lia. cbn [mbind option_bind].
    do 3 step. rewrite (Hcells (n1 - 2)) by lia. cbn [mbind option_bind].
    step. eexists. split; [reflexivity|]. split; [exact Hc|].
    intros i Hi. destruct (decide (i = n1)) as [->|Hne].
    + step. f_equal. rewrite (Pbar_rec theta m (n1 - 1)) by lia.
      unfold recurrence. replace (n1 - 1 - 2) with (n1 - 2 - 1) by lia.
      reflexivity.
    + step. apply Hcells. lia.
  - exists rleg'. split; [exact Hrun|]. split; [exact Hcap'|].
    intros i Hi. apply Hcells. lia.
Qed.

Lemma maxDeg_plus_1 : maxDeg ⊕ 1 = 361.
Proof. reflexivity. Qed.

Lemma maxDeg_plus_2 : maxDeg ⊕ 2 = 362.
Proof. reflexivity. Qed.

(** [computeNormalizedLegendreFunctions] returns for every order, and
    leaves in [rleg[n + 1]] the value of degree [n], for [n = m..360]. *)
Lemma legendre_correct self m theta rleg :
  tables_built self → 0 ≤ m ≤ 360 → cap rleg = 362 →
  ∃ rleg',
    computeNormalizedLegendreFunctions self m theta rleg = Some rleg'
    ∧ cap rleg' = 362
    ∧ ∀ n, m ≤ n ≤ 360 → load rleg' (n + 1) = Some (Pbar theta m n).
Proof.
  intros Ht Hm Hcap. unfold computeNormalizedLegendreFunctions. cbv zeta.
  rewrite maxDeg_plus_1, maxDeg_plus_2. u32_simpl.
  do 3 step.
  destruct (sectoral_loop self (sin theta) (m + 1) Ht ltac:(lia))
    as (rlnn & Hrun & Hcl & Hsec).
  rewrite Hrun. cbn [mbind option_bind].
  destruct (base_cases_ok self m (cos theta) rlnn rleg _ Ht ltac:(lia) Hcap
              (Hsec 2 ltac:(lia))) as (rleg1 & Hb & Hc1).
  rewrite Hb. cbn [mbind option_bind].
  rewrite (Hsec (m + 1)) by lia. cbn [mbind option_bind].
  replace (m + 1 - 1) with m by lia. rewrite <- Pbar_seed.
  step.
  destruct (decide (m + 2 ≤ 361)) as [H2|H2].
  - do 3 step. rewrite <- Pbar_next.
    destruct (decide (m + 3 ≤ 361)) as [H3|H3].
    + destruct (recurrence_loop self theta m
                  (upd (upd rleg1 (m + 1) (Pbar theta m m)) (m + 2)
                     (Pbar theta m (m + 1))) Ht ltac:(lia))
        as (rleg' & Hrun' & Hc' & Hcells).
      * rewrite !cap_upd. exact Hc1.
      * intros i Hi. assert (i = m + 1 ∨ i = m + 2) as [-> | ->] by lia.
        -- step. step. f_equal. f_equal. lia.
        -- step. f_equal. f_equal. lia.
      * exists rleg'. split; [exact Hrun'|]. split; [exact Hc'|].
        intros n Hn. rewrite (Hcells (n + 1)) by lia. do 2 f_equal. lia.
    + eexists. split; [reflexivity|]. split; [rewrite !cap_upd; exact Hc1|].
      intros n Hn. assert (n = m ∨ n = m + 1) as [-> | ->] by lia.
      * step. step. reflexivity.
      * replace (m + 1 + 1) with (m + 2) by lia. step. reflexivity.
  - eexists. split; [reflexivity|]. split; [rewrite !cap_upd; exact Hc1|].
    intros n Hn. assert (n = m) as -> by lia. step. reflexivity.
Qed.

(** *** The index map *)

Lemma consecutive_half i : 2 * ((i - 1) * i / 2) = (i - 1) * i.
Proof.
  destruct (Z.Even_or_Odd i) as [[k ->] | [k ->]].
  - replace ((2 * k - 1) * (2 * k)) with ((2 * k - 1) * k * 2) by ring.
    rewrite Z.div_mul by lia. ring.
  - replace ((2 * k + 1 - 1) * (2 * k + 1)) with (k * (2 * k + 1) * 2) by ring.
    rewrite Z.div_mul by lia. ring.
Qed.

Lemma idx_value i m :
  1 ≤ i ≤ 361 → 0 ≤ m ≤ 360 → idx i m = (i - 1) * i / 2 + m + 1.
Proof.
  intros Hi Hm. pose proof (consecutive_half i) as Hh.
  assert (0 ≤ (i - 1) * i ≤ 360 * 361) by nia.
  unfold idx. u32_simpl. reflexivity.
Qed.

Lemma idx_nm_index n m :
  0 ≤ n ≤ 360 → 0 ≤ m ≤ 360 → idx (n + 1) m = nm_index n m.
Proof.
  intros Hn Hm. rewrite idx_value by lia. unfold nm_index.
  replace (n + 1 - 1) with n by lia. reflexivity.
Qed.

Lemma nm_index_double n m : 2 * nm_index n m = n * (n + 1) + 2 * m + 2.
Proof.
  unfold nm_index. pose proof (consecutive_half (n + 1)) as Hh.
  replace (n + 1 - 1) with n in Hh by lia. lia.
Qed.

Lemma nm_index_inj n m n' m' :
  0 ≤ m ≤ n → 0 ≤ m' ≤ n' → nm_index n m = nm_index n' m' → n = n' ∧ m = m'.
Proof.
  intros Hm Hm' He.
  pose proof (nm_index_double n m). pose proof (nm_index_double n' m').
  assert (n = n') as -> by nia. split; [reflexivity | lia].
Qed.

Lemma nm_index_range n m :
  0 ≤ m ≤ n → n ≤ 360 → 1 ≤ nm_index n m ≤ 65341.
Proof. intros Hm Hn. pose proof (nm_index_double n m). nia. Qed.

Lemma nm_index_onto k :
  1 ≤ k ≤ 65341 → ∃ n m, 0 ≤ m ≤ n ∧ n ≤ 360 ∧ nm_index n m = k.
Proof.
  intros Hk.
  assert (Hgen : ∀ c : nat, (c ≤ 360)%nat →
            ∀ k, 1 ≤ k ≤ nm_index (Z.of_nat c) (Z.of_nat c) →
            ∃ n m, 0 ≤ m ≤ n ∧ n ≤ Z.of_nat c ∧ nm_index n m = k).
  { induction c as [|c IH]; intros Hc j Hj.
    - exists 0, 0. change (nm_index (Z.of_nat 0) (Z.of_nat 0)) with 1 in Hj.
      change (nm_index 0 0) with 1. lia.
    - pose proof (nm_index_double (Z.of_nat c) (Z.of_nat c)) as H1.
      pose proof (nm_index_double (Z.of_nat (Datatypes.S c))
                    (Z.of_nat (Datatypes.S c))) as H2.
      destruct (Z_le_gt_dec j (nm_index (Z.of_nat c) (Z.of_nat c))) as [Hlo|Hhi].
      + destruct (IH ltac:(lia) j ltac:(lia)) as (n & m & Hm & Hn & He).
        exists n, m. lia.
      + exists (Z.of_nat (Datatypes.S c)),
          (j - nm_index (Z.of_nat c) (Z.of_nat c) - 1).
        pose proof (nm_index_double (Z.of_nat (Datatypes.S c))
                      (j - nm_index (Z.of_nat c) (Z.of_nat c) - 1)) as H3.
        nia. }
  destruct (Hgen 360%nat ltac:(lia) k) as (n & m & Hm & Hn & He).
  - change (nm_index (Z.of_nat 360) (Z.of_nat 360)) with 65341. exact Hk.
  - exists n, m. lia.
Qed.

Lemma idx_eq i m :
  1 ≤ i ≤ 361 → 0 ≤ m ≤ 360 → idx i m = nm_index (i - 1) m.
Proof.
  intros Hi Hm. rewrite <- idx_nm_index by lia. f_equal. lia.
Qed.

(** *** Filling the triangular buffer *)

Lemma scatter_loop rleg m p (L : Z → R) :
  0 ≤ m ≤ 360 → cap p = 65342 →
  (∀ i, m + 1 ≤ i ≤ 361 → load rleg i = Some (L (i - 1))) →
  ∃ p',
    for_loop (m + 1) 361 (scatter_body rleg m) p = Some p'
    ∧ cap p' = 65342
    ∧ (∀ n, m ≤ n ≤ 360 → load p' (nm_index n m) = Some (L n))
    ∧ (∀ k, (∀ n, m ≤ n ≤ 360 → k ≠ nm_index n m) → load p' k = load p k).
Proof.
  intros Hm Hcap Hrleg.
  pose (I := λ (i : Z) (q : array),
    cap q = 65342
    ∧ (∀ n, m ≤ n < i - 1 → load q (nm_index n m) = Some (L n))
    ∧ (∀ k, (∀ n, m ≤ n < i - 1 → k ≠ nm_index n m) → load q k = load p k)).
  destruct (for_loop_invariant I (m + 1) 361 (scatter_body rleg m) p)
    as (p' & Hrun & Hc & Hin & Hout).
  - lia.
  - split; [exact Hcap|]. split; [intros n Hn; lia | reflexivity].
  - intros i q Hi (Hc & Hin & Hout). unfold scatter_body.
    rewrite (Hrleg i) by lia. cbn [mbind option_bind].
    rewrite idx_eq by lia.
    pose proof (nm_index_range (i - 1) m ltac:(lia) ltac:(lia)) as Hr.
    step. eexists. split; [reflexivity|]. split; [exact Hc|]. split.
    + intros n Hn. destruct (decide (n = i - 1)) as [->|Hne].
      * step. reflexivity.
      * rewrite load_upd_ne; [apply Hin; lia|].
        intros He. apply nm_index_inj in He; lia.
    + intros k Hk. rewrite load_upd_ne; [apply Hout; intros n Hn; apply Hk; lia|].
      intros He. apply (Hk (i - 1)); [lia | congruence].
  - exists p'. split; [exact Hrun|]. split; [exact Hc|]. split.
    + intros n Hn. apply Hin. lia.
    + intros k Hk. apply Hout. intros n Hn. apply Hk. lia.
Qed.

(** The loop over the orders leaves in [p] the Legendre value of every
    degree and order at its cell, and writes no other cell. *)
Lemma fill_correct self theta :
  tables_built self →
  ∃ p rleg,
    for_loop 1 361 (order_fill_body self theta 361)
      (uninit coeffsCount, uninit 362) = Some (p, rleg)
    ∧ cap p = 65342
    ∧ (∀ n m, 0 ≤ m ≤ n → n ≤ 360 →
         load p (nm_index n m) = Some (Pbar theta m n))
    ∧ (∀ k, ¬ 1 ≤ k ≤ 65341 → load p k = None).
Proof.
  intros Ht.
  pose (J := λ (j : Z) (st : array * array),
    cap st.1 = 65342 ∧ cap st.2 = 362
    ∧ (∀ n m, 0 ≤ m < j - 1 → m ≤ n ≤ 360 →
         load st.1 (nm_index n m) = Some (Pbar theta m n))
    ∧ (∀ k, (∀ n m, 0 ≤ m < j - 1 → m ≤ n ≤ 360 → k ≠ nm_index n m) →
         load st.1 k = None)).
  destruct (for_loop_invariant J 1 361 (order_fill_body self theta 361)
              (uninit coeffsCount, uninit 362))
    as ([p rleg] & Hrun & Hcp & Hcr & Hin & Hout).
  - lia.
  - split; [reflexivity|]. split; [reflexivity|]. split.
    + intros n m Hm. lia.
    + intros k _. apply load_uninit.
  - intros j [q rleg] Hj (Hcq & Hcr & Hin & Hout). cbn [fst snd] in *.
    unfold order_fill_body. u32_simpl.
    destruct (legendre_correct self (j - 1) theta rleg Ht ltac:(lia) Hcr)
      as (rleg' & Hleg & Hcr' & Hvals).
    rewrite Hleg. cbn [mbind option_bind].
    destruct (scatter_loop rleg' (j - 1) q (Pbar theta (j - 1)) ltac:(lia) Hcq)
      as (q' & Hsc & Hcq' & Hin' & Hout').
    { intros i Hi. replace i with (i - 1 + 1) at 1 by lia. apply Hvals. lia. }
    replace (j - 1 + 1) with j in Hsc by lia. rewrite Hsc.
    cbn [mbind option_bind]. eexists. split; [reflexivity|]. cbn [fst snd].
    split; [exact Hcq'|]. split; [exact Hcr'|]. split.
    + intros n m Hm Hn. destruct (decide (m = j - 1)) as [->|Hne].
      * apply Hin'. lia.
      * rewrite Hout'; [apply Hin; lia|].
        intros n' Hn' He. apply nm_index_inj in He; lia.
    + intros k Hk. rewrite Hout'; [apply Hout|].
      * intros n m Hm Hn. apply Hk; lia.
      * intros n Hn. apply Hk; lia.
  - exists p, rleg. cbn [fst snd] in *. split; [exact Hrun|].
    split; [exact Hcp|]. split.
    + intros n m Hm Hn. apply Hin; lia.
    + intros k Hk. apply Hout. intros n m Hm Hn He. apply Hk.
      rewrite He. apply nm_index_range; lia.
Qed.

(** *** The longitude series *)

Lemma sin_three_term m x :
  sin (IZR m * x)
  = (2 * cos x * sin (IZR (m - 1) * x) - sin (IZR (m - 2) * x))%R.
Proof.
  rewrite !minus_IZR.
  replace ((IZR m - 1) * x)%R with (IZR m * x - x)%R by ring.
  replace ((IZR m - 2) * x)%R with (IZR m * x - 2 * x)%R by ring.
  rewrite !sin_minus, sin_2a, cos_2a_cos. ring.
Qed.

Lemma cos_three_term m x :
  cos (IZR m * x)
  = (2 * cos x * cos (IZR (m - 1) * x) - cos (IZR (m - 2) * x))%R.
Proof.
  rewrite !minus_IZR.
  replace ((IZR m - 1) * x)%R with (IZR m * x - x)%R by ring.
  replace ((IZR m - 2) * x)%R with (IZR m * x - 2 * x)%R by ring.
  rewrite !cos_minus, sin_2a, cos_2a_cos.
  pose proof (sin2_cos2 x) as H. unfold Rsqr in H.
  replace (sin x * sin x)%R with (1 - cos x * cos x)%R in * by lra.
  assert (Hs : (sin (IZR m * x) * (2 * sin x * cos x)
                = 2 * cos x * (sin (IZR m * x) * sin x))%R) by ring.
  rewrite Hs. 
  assert (Hc : (2 * cos x * (cos (IZR m * x) * cos x + sin (IZR m * x) * sin x)
     - (cos (IZR m * x) * (2 * cos x * cos x - 1)
        + 2 * cos x * (sin (IZR m * x) * sin x))
     = cos (IZR m * x))%R) by ring.
  symmetry. exact Hc.
Qed.

(** [computeTrigonometricSeriesForLongitude] returns, and leaves
    [sin (m λ)] and [cos (m λ)] in cells [m = 1..360]. *)
Lemma trig_correct rlon :
  ∃ sinml cosml,
    computeTrigonometricSeriesForLongitude rlon (uninit 362) (uninit 362)
      = Some (sinml, cosml)
    ∧ ∀ m, 1 ≤ m ≤ 360 →
        load sinml m = Some (sin (IZR m * rlon))
        ∧ load cosml m = Some (cos (IZR m * rlon)).
Proof.
  unfold computeTrigonometricSeriesForLongitude. cbv zeta. do 4 step.
  pose (I := λ (m : Z) (st : array * array),
    cap st.1 = 362 ∧ cap st.2 = 362
    ∧ ∀ i, 1 ≤ i < m →
        load st.1 i = Some (sin (IZR i * rlon))
        ∧ load st.2 i = Some (cos (IZR i * rlon))).
  match goal with
  | |- ∃ _ _, for_loop _ _ _ ?st = _ ∧ _ =>
      destruct (for_loop_invariant I 3 maxDeg (trig_body (cos rlon)) st)
        as ([sinml cosml] & Hrun & Hcs & Hcc & Hcells)
  end.
  - unfold maxDeg. lia.
  - split; [reflexivity|]. split; [reflexivity|]. cbn [fst snd].
    intros i Hi. assert (i = 1 ∨ i = 2) as [-> | ->] by lia.
    + do 4 step. rewrite Rmult_1_l. split; reflexivity.
    + do 2 step. rewrite sin_2a, cos_2a_cos. split; f_equal; ring.
  - intros m [s c] Hm (Hcs & Hcc & Hcells). cbn [fst snd] in *.
    unfold maxDeg in Hm. unfold trig_body. u32_simpl.
    destruct (Hcells (m - 1) ltac:(lia)) as [Hs1 Hc1].
    destruct (Hcells (m - 2) ltac:(lia)) as [Hs2 Hc2].
    rewrite Hs1, Hs2. cbn [mbind option_bind]. step.
    rewrite Hc1, Hc2. cbn [mbind option_bind]. step.
    eexists. split; [reflexivity|]. cbn [fst snd].
    split; [exact Hcs|]. split; [exact Hcc|].
    intros i Hi. cbn [fst snd]. destruct (decide (i = m)) as [->|Hne].
    + do 2 step. rewrite <- sin_three_term, <- cos_three_term.
      split; reflexivity.
    + do 2 step. apply Hcells. lia.
  - exists sinml, cosml. split; [exact Hrun|].
    intros m Hm. apply Hcells. unfold maxDeg. lia.
Qed.

(** *** Sums *)

Lemma big_sum_empty lo hi f : hi < lo → big_sum lo hi f = 0%R.
Proof.
  intros H. unfold big_sum.
  replace (Z.to_nat (hi + 1 - lo)) with O by lia. reflexivity.
Qed.

Lemma big_sum_last lo hi f :
  lo ≤ hi → big_sum lo hi f = (big_sum lo (hi - 1) f + f hi)%R.
Proof.
  intros H. unfold big_sum.
  replace (Z.to_nat (hi + 1 - lo))
    with (Datatypes.S (Z.to_nat (hi - 1 + 1 - lo))) by lia.
  cbn [sum_n]. do 2 f_equal. lia.
Qed.

(** *** The synthesis loops *)

Section Synthesis.

Variable egm96Data : Z → Z → R.
Variables (p sinml cosml : array).
Variable L : Z → Z → R.
Variables C S : Z → R.

Hypothesis p_cells :
  ∀ n m, 0 ≤ m ≤ n → n ≤ 360 → load p (nm_index n m) = Some (L n m).
Hypothesis sinml_cells : ∀ m, 1 ≤ m ≤ 360 → load sinml m = Some (S m).
Hypothesis cosml_cells : ∀ m, 1 ≤ m ≤ 360 → load cosml m = Some (C m).

Lemma nm_index_order n m : nm_index n m = nm_index n 0 + m.
Proof. unfold nm_index. lia. Qed.

Lemma nm_index_next_degree n : nm_index n 0 = nm_index (n - 1) (n - 1) + 1.
Proof.
  pose proof (nm_index_double n 0). pose proof (nm_index_double (n - 1) (n - 1)).
  lia.
Qed.

(** The loop over the orders of degree [n], entered with [k] at the cell
    of order 0: after the iterations [1..m], [k] is at the cell of order
    [m], each iteration having read the cell of its own order. *)
Lemma order_loop n m sumc0 sum0 :
  2 ≤ n ≤ 360 → 0 ≤ m ≤ n →
  for_loop 1 m (order_body egm96Data p sinml cosml)
    (nm_index n 0, sumc0, sum0)
  = Some (nm_index n m,
          (sumc0 + big_sum 1 m (correction_term egm96Data L C S n))%R,
          (sum0 + big_sum 1 m (main_term egm96Data L C S n))%R).
Proof.
  intros Hn Hm.
  pose (I := λ (i : Z) (st : Z * R * R),
    st = (nm_index n (i - 1),
          (sumc0 + big_sum 1 (i - 1) (correction_term egm96Data L C S n))%R,
          (sum0 + big_sum 1 (i - 1) (main_term egm96Data L C S n))%R)).
  destruct (for_loop_invariant I 1 m (order_body egm96Data p sinml cosml)
              (nm_index n 0, sumc0, sum0)) as (st & Hrun & Hst).
  - lia.
  - unfold I. replace (1 - 1) with 0 by lia.
    rewrite !big_sum_empty by lia. rewrite !Rplus_0_r. reflexivity.
  - intros i st Hi ->. unfold order_body.
    pose proof (nm_index_range n (i - 1) ltac:(lia) ltac:(lia)).
    u32_simpl.
    replace (nm_index n (i - 1) + 1) with (nm_index n i)
      by (rewrite (nm_index_order n i), (nm_index_order n (i - 1)); lia).
    rewrite cosml_cells, sinml_cells, p_cells by lia.
    cbn [mbind option_bind]. eexists. split; [reflexivity|].
    unfold I. replace (i + 1 - 1) with i by lia.
    rewrite (big_sum_last 1 i (correction_term egm96Data L C S n)) by lia.
    rewrite (big_sum_last 1 i (main_term egm96Data L C S n)) by lia.
    unfold correction_term at 3, main_term at 3.
    rewrite <- !Rplus_assoc. reflexivity.
  - rewrite Hrun, Hst. replace (m + 1 - 1) with m by lia. reflexivity.
Qed.

(** The loop over the degrees: after the iterations [2..n], [k] is at
    the last cell of degree [n] and [arn] is [ar ^ n]. *)
Lemma degree_loop ar n :
  1 ≤ n ≤ 360 →
  for_loop 2 n (degree_body egm96Data p sinml cosml ar) (3, ar, 0%R, 0%R)
  = Some (nm_index n n, (ar ^ Z.to_nat n)%R,
          big_sum 2 n (correction_degree egm96Data L C S),
          big_sum 2 n
            (λ i, main_degree egm96Data L C S i * ar ^ Z.to_nat i)%R).
Proof.
  intros Hn.
  pose (I := λ (i : Z) (st : Z * R * R * R),
    st = (nm_index (i - 1) (i - 1), (ar ^ Z.to_nat (i - 1))%R,
          big_sum 2 (i - 1) (correction_degree egm96Data L C S),
          big_sum 2 (i - 1)
            (λ j, main_degree egm96Data L C S j * ar ^ Z.to_nat j)%R)).
  destruct (for_loop_invariant I 2 n
              (degree_body egm96Data p sinml cosml ar) (3, ar, 0%R, 0%R))
    as (st & Hrun & Hst).
  - lia.
  - unfold I. rewrite !big_sum_empty by lia.
    change (nm_index (2 - 1) (2 - 1)) with 3.
    change (Z.to_nat (2 - 1)) with 1%nat. rewrite pow_1. reflexivity.
  - intros i st Hi ->. unfold degree_body.
    pose proof (nm_index_range (i - 1) (i - 1) ltac:(lia) ltac:(lia)).
    u32_simpl. rewrite <- nm_index_next_degree.
    rewrite p_cells by lia. cbn [mbind option_bind].
    rewrite order_loop by lia. cbn [mbind option_bind].
    eexists. split; [reflexivity|].
    unfold I. replace (i + 1 - 1) with i by lia.
    rewrite (big_sum_last 2 i (correction_degree egm96Data L C S)) by lia.
    rewrite (big_sum_last 2 i
               (λ j, main_degree egm96Data L C S j * ar ^ Z.to_nat j)%R) by lia.
    replace (ar ^ Z.to_nat (i - 1) * ar)%R with (ar ^ Z.to_nat i)%R.
    + reflexivity.
    + replace (Z.to_nat i) with (Datatypes.S (Z.to_nat (i - 1))) by lia.
      simpl. ring.
  - rewrite Hrun, Hst. replace (n + 1 - 1) with n by lia. reflexivity.
Qed.

Lemma synthesis_loop_value ar :
  synthesis_loop egm96Data p sinml cosml ar
  = Some (65341, (ar ^ 360)%R,
          big_sum 2 360 (correction_degree egm96Data L C S),
          main_sum egm96Data L C S ar).
Proof.
  unfold synthesis_loop, maxDeg. rewrite degree_loop by lia. reflexivity.
Qed.

Lemma synthesis_correct gr re :
  calculateGravitationalUndulation egm96Data p sinml cosml gr re
  = Some (undulation_value egm96Data L C S gr re).
Proof.
  unfold calculateGravitationalUndulation. cbv zeta.
  rewrite synthesis_loop_value. cbn [mbind option_bind].
  rewrite (p_cells 1 0 ltac:(lia) ltac:(lia) : load p 2 = _).
  cbn [mbind option_bind].
  rewrite (p_cells 1 1 ltac:(lia) ltac:(lia) : load p 3 = _).
  rewrite cosml_cells, sinml_cells by lia.
  cbn [mbind option_bind]. f_equal.
  unfold undulation_value, correction_sum, reference_terms,
    WGS84DatumSurfaceEquatorialRadius, WGS84GravitationalConstant.
  replace 6378137.0%R with 6378137%R by lra.
  replace 100.0%R with 100%R by lra.
  reflexivity.
Qed.

End Synthesis.

(** *** A whole query *)

Lemma bind_Some {A B : Type} (x : A) (f : A → option B) : Some x ≫= f = f x.
Proof. reflexivity. Qed.

Lemma geocentric_eta lat lon :
  computeGeocentricMetrics lat lon
  = (((M_PI / 2 - colatitude lat lon)%R, normal_gravity lat lon),
     geocentric_radius lat lon).
Proof.
  unfold colatitude, normal_gravity, geocentric_radius.
  destruct (computeGeocentricMetrics lat lon) as [[rlat gr] re].
  cbn [fst snd]. do 2 f_equal. ring.
Qed.

Section Query.

Variable egm96Data : Z → Z → R.

(** A query is its two array-building phases followed by the synthesis
    on the arrays they built. *)
Lemma query_phases self lat lon p rleg sinml cosml :
  for_loop 1 361 (order_fill_body self (colatitude lat lon) 361)
    (uninit coeffsCount, uninit 362) = Some (p, rleg) →
  computeTrigonometricSeriesForLongitude lon (uninit 362) (uninit 362)
    = Some (sinml, cosml) →
  calculateGeoidUndulationAtCoordinates egm96Data self lat lon
  = calculateGravitationalUndulation egm96Data p sinml cosml
      (normal_gravity lat lon) (geocentric_radius lat lon).
Proof.
  intros Hfill Htrig.
  unfold calculateGeoidUndulationAtCoordinates.
  rewrite maxDeg_plus_1, maxDeg_plus_2, geocentric_eta.
  replace (M_PI / 2 - (M_PI / 2 - colatitude lat lon))%R
    with (colatitude lat lon) by ring.
  rewrite Hfill, bind_Some, Htrig, bind_Some. reflexivity.
Qed.

(** The arrays a query hands to [calculateGravitationalUndulation]. *)
Lemma query_run self lat lon :
  tables_built self →
  ∃ p rleg sinml cosml,
    for_loop 1 361 (order_fill_body self (colatitude lat lon) 361)
      (uninit coeffsCount, uninit 362) = Some (p, rleg)
    ∧ computeTrigonometricSeriesForLongitude lon (uninit 362) (uninit 362)
      = Some (sinml, cosml)
    ∧ (∀ n m, 0 ≤ m ≤ n → n ≤ 360 →
         load p (nm_index n m) = Some (Pbar (colatitude lat lon) m n))
    ∧ (∀ k, ¬ 1 ≤ k ≤ 65341 → load p k = None)
    ∧ (∀ m, 1 ≤ m ≤ 360 → load sinml m = Some (sin (IZR m * lon)))
    ∧ (∀ m, 1 ≤ m ≤ 360 → load cosml m = Some (cos (IZR m * lon)))
    ∧ calculateGeoidUndulationAtCoordinates egm96Data self lat lon
      = calculateGravitationalUndulation egm96Data p sinml cosml
          (normal_gravity lat lon) (geocentric_radius lat lon).
Proof.
  intros Ht.
  destruct (fill_correct self (colatitude lat lon) Ht)
    as (p & rleg & Hfill & _ & Hp & Hnone).
  destruct (trig_correct lon) as (sinml & cosml & Htrig & Hsc).
  exists p, rleg, sinml, cosml.
  split; [exact Hfill|]. split; [exact Htrig|]. split; [exact Hp|].
  split; [exact Hnone|].
  split; [intros m Hm; apply Hsc; exact Hm|].
  split; [intros m Hm; apply Hsc; exact Hm|].
  apply query_phases with rleg; assumption.
Qed.

Lemma query_value self lat lon :
  tables_built self →
  calculateGeoidUndulationAtCoordinates egm96Data self lat lon
  = Some (geoid_undulation egm96Data lat lon).
Proof.
  intros Ht.
  destruct (query_run self lat lon Ht)
    as (p & rleg & sinml & cosml & _ & _ & Hp & _ & Hs & Hc & ->).
  apply synthesis_correct; assumption.
Qed.

Lemma entry_value self lat lon :
  tables_built self →
  egm96ComputeAltitudeOffset egm96Data self lat lon
  = Some (geoid_undulation egm96Data (lat / (180 / PI)) (lon / (180 / PI)),
          self).
Proof.
  intros Ht. unfold egm96ComputeAltitudeOffset.
  rewrite query_value by exact Ht. rewrite bind_Some.
  unfold M_PI. replace 180.0%R with 180%R by lra. reflexivity.
Qed.

End Query.

(** * The claims *)

(** ** The index map *)

Lemma idx_double i m :
  1 ≤ i ≤ 361 → 0 ≤ m ≤ 360 → 2 * idx i m = (i - 1) * i + 2 * m + 2.
Proof.
  intros Hi Hm. rewrite idx_value by lia.
  pose proof (consecutive_half i). lia.
Qed.

(** C3, as amended.  On the pairs [1 ≤ m ≤ n ≤ 360] the index map
    [idx n m = ((n - 1) n) / 2 + m + 1] is injective with values in
    [2..64981], hence within [1..65341] but not onto it.  On the pairs
    the scatter loop uses, [1 ≤ i ≤ 361] and [0 ≤ m ≤ i - 1] where [i] is
    the degree plus one, it is a bijection onto [1..65341]. *)
Theorem idx_bijection_on_scatter_pairs :
  (∀ n m, 1 ≤ m ≤ n → n ≤ 360 → 2 ≤ idx n m ≤ 64981)
  ∧ (∀ n m n' m', 1 ≤ m ≤ n → n ≤ 360 → 1 ≤ m' ≤ n' → n' ≤ 360 →
       idx n m = idx n' m' → n = n' ∧ m = m')
  ∧ (∀ i m, 1 ≤ i ≤ 361 → 0 ≤ m < i → 1 ≤ idx i m ≤ 65341)
  ∧ (∀ i m i' m', 1 ≤ i ≤ 361 → 0 ≤ m < i → 1 ≤ i' ≤ 361 → 0 ≤ m' < i' →
       idx i m = idx i' m' → i = i' ∧ m = m')
  ∧ (∀ k, 1 ≤ k ≤ 65341 → ∃ i m, 1 ≤ i ≤ 361 ∧ 0 ≤ m < i ∧ idx i m = k).
Proof.
  split; [|split; [|split; [|split]]].
  - intros n m Hm Hn. pose proof (idx_double n m ltac:(lia) ltac:(lia)). nia.
  - intros n m n' m' Hm Hn Hm' Hn' He.
    pose proof (idx_double n m ltac:(lia) ltac:(lia)).
    pose proof (idx_double n' m' ltac:(lia) ltac:(lia)).
    assert (n = n') as -> by nia. split; [reflexivity | lia].
  - intros i m Hi Hm. rewrite idx_eq by lia. apply nm_index_range; lia.
  - intros i m i' m' Hi Hm Hi' Hm' He. rewrite !idx_eq in He by lia.
    apply nm_index_inj in He; lia.
  - intros k Hk. destruct (nm_index_onto k Hk) as (n & m & Hm & Hn & He).
    exists (n + 1), m. rewrite idx_nm_index by lia. lia.
Qed.

Lemma idx_bijection_on_scatter_pairs_witness :
  2 ≤ idx 1 1 ≤ 64981
  ∧ (idx 2 1 = idx 2 1 → 2 = 2 ∧ 1 = 1)
  ∧ 1 ≤ idx 361 360 ≤ 65341
  ∧ (idx 1 0 = idx 1 0 → 1 = 1 ∧ 0 = 0)
  ∧ ∃ i m, 1 ≤ i ≤ 361 ∧ 0 ≤ m < i ∧ idx i m = 65341.
Proof.
  destruct idx_bijection_on_scatter_pairs as (H1 & H2 & H3 & H4 & H5).
  split; [apply H1; lia|].
  split; [apply H2; lia|].
  split; [apply H3; lia|].
  split; [apply H4; lia|].
  apply H5; lia.
Defined.

(** C3, as stated, fails: no pair [1 ≤ m ≤ n ≤ 360] is mapped to the
    index 1, so the map is not onto [1..65341]. *)
Lemma idx_misses_index_1 :
  ¬ ∃ n m, 1 ≤ m ≤ n ∧ n ≤ 360 ∧ idx n m = 1.
Proof.
  intros (n & m & Hm & Hn & He).
  pose proof (idx_double n m ltac:(lia) ltac:(lia)). nia.
Qed.

(** ** The Legendre recursion *)

(** The assignment of the recurrence loop, with its table entries read
    as square roots, is the three-term recurrence in quotient form. *)
Lemma recurrence_quotient_form m n cothet r1 r2 :
  recurrence m n cothet r1 r2
  = (sqrt (IZR (2 * n + 1)) / (sqrt (IZR (n + m)) * sqrt (IZR (n - m)))
     * (sqrt (IZR (2 * n - 1)) * cothet * r1
        - sqrt (IZR (n + m - 1)) * sqrt (IZR (n - m - 1))
          / sqrt (IZR (2 * n - 3)) * r2))%R.
Proof. unfold recurrence, Rdiv. rewrite Rinv_mult. ring. Qed.

Lemma skip_guard_spec m n :
  skip_guard m n = true ↔ (m = 0 ∧ n < 2) ∨ (m = 1 ∧ n < 3).
Proof.
  unfold skip_guard.
  destruct (Z.eqb_spec m 0), (Z.eqb_spec m 1), (Z.ltb_spec n 2),
    (Z.ltb_spec n 3); simpl; split; intros; try lia; try discriminate;
    reflexivity.
Qed.

(** C4.  For every order [m] in [0..360] and every colatitude,
    [computeNormalizedLegendreFunctions] returns and leaves in
    [rleg[n + 1]] the value of degree [n] for [n = m..360]: the sectoral
    seed at [n = m], the base values for [m = 0] and [m = 1], and for
    every [n ≥ m + 2] the three-term recurrence.  The guard of the
    [continue] holds exactly for [(m = 0, n < 2)] and [(m = 1, n < 3)],
    so for no degree of the loop, and every number whose square root the
    recurrence uses is positive. *)
Theorem legendre_three_term_recurrence :
  ∃ self, EGM96_new = Some self ∧
  ∀ m theta rleg, 0 ≤ m ≤ 360 → cap rleg = 362 →
  ∃ rleg',
    computeNormalizedLegendreFunctions self m theta rleg = Some rleg'
    ∧ (∀ n, m ≤ n ≤ 360 → load rleg' (n + 1) = Some (Pbar theta m n))
    ∧ Pbar theta m m = sectoral (sin theta) (Z.to_nat m)
    ∧ sectoral (sin theta) 0 = 1%R
    ∧ sectoral (sin theta) 1 = (sin theta * sqrt 3)%R
    ∧ (∀ k, 2 ≤ k →
         sectoral (sin theta) (Z.to_nat k)
         = (sqrt (IZR (2 * k + 1)) / sqrt (IZR (2 * k)) * sin theta
            * sectoral (sin theta) (Z.to_nat (k - 1)))%R)
    ∧ (m = 0 → Pbar theta m 0 = 1%R ∧ Pbar theta m 1 = (cos theta * sqrt 3)%R)
    ∧ (m = 1 →
         Pbar theta m 1 = (sin theta * sqrt 3)%R
         ∧ Pbar theta m 2 = (sqrt 5 * cos theta * Pbar theta m 1)%R)
    ∧ (∀ n, skip_guard m n = true ↔ (m = 0 ∧ n < 2) ∨ (m = 1 ∧ n < 3))
    ∧ ∀ n, m + 2 ≤ n ≤ 360 →
        skip_guard m n = false
        ∧ 0 < n + m ∧ 0 < n - m ∧ 0 < n + m - 1 ∧ 0 < n - m - 1
        ∧ 0 < 2 * n - 3
        ∧ Pbar theta m n
          = (sqrt (IZR (2 * n + 1))
             / (sqrt (IZR (n + m)) * sqrt (IZR (n - m)))
             * (sqrt (IZR (2 * n - 1)) * cos theta * Pbar theta m (n - 1)
                - sqrt (IZR (n + m - 1)) * sqrt (IZR (n - m - 1))
                  / sqrt (IZR (2 * n - 3)) * Pbar theta m (n - 2)))%R.
Proof.
  destruct EGM96_new_built as (self & Hnew & Ht).
  exists self. split; [exact Hnew|].
  intros m theta rleg Hm Hcap.
  destruct (legendre_correct self m theta rleg Ht Hm Hcap)
    as (rleg' & Hrun & _ & Hvals).
  exists rleg'. split; [exact Hrun|]. split; [exact Hvals|].
  split; [apply Pbar_seed|]. split; [reflexivity|]. split; [reflexivity|].
  split.
  { intros k Hk. rewrite sectoral_step by exact Hk. unfold Rdiv. ring. }
  split.
  { intros ->. split; [reflexivity|].
    change 1 with (0 + 1) at 1. rewrite Pbar_next, Pbar_seed.
    change (sectoral (sin theta) (Z.to_nat 0)) with 1%R.
    change ((0 + 1) * 2 + 1) with 3. ring. }
  split.
  { intros ->. split; [apply Pbar_seed|].
    change 2 with (1 + 1) at 1. rewrite Pbar_next.
    change ((1 + 1) * 2 + 1) with 5. reflexivity. }
  split; [intros n; apply skip_guard_spec|].
  intros n Hn. split; [apply skip_guard_false; lia|].
  repeat (split; [lia|]).
  rewrite Pbar_rec by lia. apply recurrence_quotient_form.
Qed.

Lemma legendre_three_term_recurrence_witness :
  ∃ self rleg',
    EGM96_new = Some self
    ∧ computeNormalizedLegendreFunctions self 0 0 (uninit 362) = Some rleg'
    ∧ load rleg' 1 = Some (Pbar 0 0 0)
    ∧ skip_guard 0 2 = false.
Proof.
  destruct legendre_three_term_recurrence as (self & Hnew & H).
  destruct (H 0 0%R (uninit 362) ltac:(lia) ltac:(reflexivity))
    as (rleg' & Hrun & Hvals & _ & _ & _ & _ & _ & _ & _ & Hrec).
  exists self, rleg'. split; [exact Hnew|]. split; [exact Hrun|].
  split; [apply (Hvals 0); lia|].
  apply (Hrec 2). lia.
Defined.

(** The table indices of the three places that read [drts] and [dirt]
    with an index depending on the loop variable, as the source writes
    them in [u32] arithmetic. *)
Lemma sectoral_indices m n1 :
  0 ≤ m ≤ 360 → 3 ≤ n1 ≤ m ⊕ 1 →
  1 ≤ 2 ⊗ (n1 ⊖ 1) ⊕ 1 ≤ 721 ∧ 1 ≤ 2 ⊗ (n1 ⊖ 1) ≤ 721.
Proof.
  intros Hm Hn1.
  assert (Hm1 : m ⊕ 1 = m + 1) by (u32_simpl; reflexivity).
  rewrite Hm1 in Hn1. u32_simpl. lia.
Qed.

Lemma recurrence_indices m n1 :
  0 ≤ m ≤ 360 → m ⊕ 3 ≤ n1 ≤ maxDeg ⊕ 1 →
  let n := n1 ⊖ 1 in
  let n2 := 2 ⊗ n in
  skip_guard m n = false
  ∧ 1 ≤ n2 ⊕ 1 ≤ 721 ∧ 1 ≤ n ⊕ m ≤ 721 ∧ 1 ≤ n ⊖ m ≤ 721
  ∧ 1 ≤ n2 ⊖ 1 ≤ 721 ∧ 1 ≤ n ⊕ m ⊖ 1 ≤ 721 ∧ 1 ≤ n ⊖ m ⊖ 1 ≤ 721
  ∧ 1 ≤ n2 ⊖ 3 ≤ 721.
Proof.
  intros Hm Hn1. cbv zeta.
  assert (Hm3 : m ⊕ 3 = m + 3) by (u32_simpl; reflexivity).
  rewrite Hm3, maxDeg_plus_1 in Hn1.
  u32_simpl. split; [apply skip_guard_false; lia | lia].
Qed.

Lemma second_value_index m :
  0 ≤ m ≤ 360 → m ⊕ 2 ≤ maxDeg ⊕ 1 → 1 ≤ (m ⊕ 1) ⊗ 2 ⊕ 1 ≤ 721.
Proof.
  intros Hm H2.
  assert (Hm2 : m ⊕ 2 = m + 2) by (u32_simpl; reflexivity).
  rewrite Hm2, maxDeg_plus_1 in H2. u32_simpl. lia.
Qed.

(** C10.  The constructor populates exactly the cells [1..721] of [drts]
    and [dirt], arrays of 1301 elements.  For every order [m] in
    [0..360] every index at which [computeNormalizedLegendreFunctions]
    reads a table lies in [1..721]: the constants 3 and 5, the indices of
    the sectoral loop, the index [m1 * 2 + 1] and the seven indices of
    the recurrence loop.  Accordingly the function returns: a read of a
    cell that was never written would make it fail. *)
Theorem legendre_reads_populated_tables :
  ∃ self, EGM96_new = Some self
    ∧ cap (drts self) = 1301 ∧ cap (dirt self) = 1301
    ∧ (∀ i, is_Some (load (drts self) i) ↔ 1 ≤ i ≤ 721)
    ∧ (∀ i, is_Some (load (dirt self) i) ↔ 1 ≤ i ≤ 721)
    ∧ (∀ m theta rleg, 0 ≤ m ≤ 360 → cap rleg = 362 →
         is_Some (computeNormalizedLegendreFunctions self m theta rleg))
    ∧ (∀ m n1, 0 ≤ m ≤ 360 → 3 ≤ n1 ≤ m ⊕ 1 →
         1 ≤ 2 ⊗ (n1 ⊖ 1) ⊕ 1 ≤ 721 ∧ 1 ≤ 2 ⊗ (n1 ⊖ 1) ≤ 721)
    ∧ (∀ m, 0 ≤ m ≤ 360 → m ⊕ 2 ≤ maxDeg ⊕ 1 →
         1 ≤ (m ⊕ 1) ⊗ 2 ⊕ 1 ≤ 721)
    ∧ (∀ m n1, 0 ≤ m ≤ 360 → m ⊕ 3 ≤ n1 ≤ maxDeg ⊕ 1 →
         let n := n1 ⊖ 1 in
         let n2 := 2 ⊗ n in
         skip_guard m n = false
         ∧ 1 ≤ n2 ⊕ 1 ≤ 721 ∧ 1 ≤ n ⊕ m ≤ 721 ∧ 1 ≤ n ⊖ m ≤ 721
         ∧ 1 ≤ n2 ⊖ 1 ≤ 721 ∧ 1 ≤ n ⊕ m ⊖ 1 ≤ 721
         ∧ 1 ≤ n ⊖ m ⊖ 1 ≤ 721 ∧ 1 ≤ n2 ⊖ 3 ≤ 721).
Proof.
  destruct EGM96_new_built as (self & Hnew & Ht).
  exists self. split; [exact Hnew|].
  pose proof Ht as (Hc1 & Hc2 & Hcells).
  split; [exact Hc1|]. split; [exact Hc2|].
  split.
  { intros i. destruct (Hcells i) as [-> _].
    destruct (decide (1 ≤ i ≤ 721)) as [Hi|Hi]; split; intros H.
    - exact Hi.
    - eexists; reflexivity.
    - destruct H as [? H]. discriminate.
    - contradiction. }
  split.
  { intros i. destruct (Hcells i) as [_ ->].
    destruct (decide (1 ≤ i ≤ 721)) as [Hi|Hi]; split; intros H.
    - exact Hi.
    - eexists; reflexivity.
    - destruct H as [? H]. discriminate.
    - contradiction. }
  split.
  { intros m theta rleg Hm Hcap.
    destruct (legendre_correct self m theta rleg Ht Hm Hcap)
      as (rleg' & -> & _).
    eexists; reflexivity. }
  split; [exact sectoral_indices|].
  split; [exact second_value_index | exact recurrence_indices].
Qed.

Lemma legendre_reads_populated_tables_witness :
  ∃ self, EGM96_new = Some self
    ∧ is_Some (computeNormalizedLegendreFunctions self 360 0 (uninit 362))
    ∧ 1 ≤ 2 ⊗ (361 ⊖ 1) ⊕ 1 ≤ 721
    ∧ 1 ≤ (359 ⊕ 1) ⊗ 2 ⊕ 1 ≤ 721
    ∧ 1 ≤ (3 ⊖ 1) ⊖ 0 ⊖ 1 ≤ 721.
Proof.
  destruct legendre_reads_populated_tables
    as (self & Hnew & _ & _ & _ & _ & Hrun & Hsec & Hnext & Hrec).
  exists self. split; [exact Hnew|].
  split; [apply Hrun; [lia | reflexivity]|].
  split; [apply (Hsec 360 361); [lia | vm_compute; split; discriminate]|].
  split; [apply (Hnext 359); [lia | vm_compute; discriminate]|].
  apply (Hrec 0 3); [lia | vm_compute; split; discriminate].
Defined.

(** ** The ellipsoid metrics *)

(** C5.  [computeGeocentricMetrics] returns the geocentric latitude
    [atan (z / sqrt (x² + y²))], the normal gravity
    [geqt (1 + k sin² φ) / sqrt (1 - e² sin² φ)] and the geocentric
    radius [sqrt (x² + y² + z²)], with [x], [y], [z] derived from
    [n = a / sqrt (1 - e² sin² φ)] and the WGS84 constants. *)
Theorem geocentric_metrics_formulas (lat lon : R) :
  let a := 6378137%R in
  let e2 := 0.00669437999013%R in
  let geqt := 9.7803253359%R in
  let k := 0.00193185265246%R in
  let n := (a / sqrt (1 - e2 * (sin lat)²))%R in
  let x := (n * cos lat * cos lon)%R in
  let y := (n * cos lat * sin lon)%R in
  let z := (n * (1 - e2) * sin lat)%R in
  computeGeocentricMetrics lat lon
  = (atan (z / sqrt (x² + y²)),
     (geqt * (1 + k * (sin lat)²) / sqrt (1 - e2 * (sin lat)²))%R,
     sqrt (x² + y² + z²)).
Proof.
  cbv zeta. unfold computeGeocentricMetrics, Rsqr.
  replace 6378137.0%R with 6378137%R by lra.
  replace 1.0%R with 1%R by lra.
  reflexivity.
Qed.

(** ** Longitude periodicity *)

Lemma sin_plus_2PI x : sin (x + 2 * PI) = sin x.
Proof.
  rewrite <- (sin_period x 1). f_equal. simpl. ring.
Qed.

Lemma cos_plus_2PI x : cos (x + 2 * PI) = cos x.
Proof.
  rewrite <- (cos_period x 1). f_equal. simpl. ring.
Qed.

Lemma metrics_periodic lat lon :
  computeGeocentricMetrics lat (lon + 2 * PI) = computeGeocentricMetrics lat lon.
Proof.
  unfold computeGeocentricMetrics. rewrite sin_plus_2PI, cos_plus_2PI.
  reflexivity.
Qed.

Lemma trig_periodic rlon sinml cosml :
  computeTrigonometricSeriesForLongitude (rlon + 2 * PI) sinml cosml
  = computeTrigonometricSeriesForLongitude rlon sinml cosml.
Proof.
  unfold computeTrigonometricSeriesForLongitude.
  rewrite sin_plus_2PI, cos_plus_2PI. reflexivity.
Qed.

Lemma query_periodic egm96Data self lat lon :
  calculateGeoidUndulationAtCoordinates egm96Data self lat (lon + 2 * PI)
  = calculateGeoidUndulationAtCoordinates egm96Data self lat lon.
Proof.
  unfold calculateGeoidUndulationAtCoordinates.
  rewrite metrics_periodic, trig_periodic. reflexivity.
Qed.

Lemma degrees_full_turn lon :
  ((lon + 360) / (180.0 / M_PI) = lon / (180.0 / M_PI) + 2 * PI)%R.
Proof.
  unfold M_PI. replace 180.0%R with 180%R by lra.
  pose proof PI_neq0 as H. field. exact H.
Qed.

(** C7.  Under exact-real semantics of [sin] and [cos], a query at
    [(lat, lon + 360°)] returns the value of the query at [(lat, lon)],
    for every latitude and longitude. *)
Theorem longitude_periodicity (egm96Data : Z → Z → R) :
  ∃ self, EGM96_new = Some self ∧
  ∀ lat lon, ∃ v,
    egm96ComputeAltitudeOffset egm96Data self lat lon = Some (v, self)
    ∧ egm96ComputeAltitudeOffset egm96Data self lat (lon + 360)
      = Some (v, self).
Proof.
  destruct EGM96_new_built as (self & Hnew & Ht).
  exists self. split; [exact Hnew|].
  intros lat lon. eexists. split.
  - apply entry_value. exact Ht.
  - rewrite <- (entry_value egm96Data self lat lon Ht).
    unfold egm96ComputeAltitudeOffset.
    rewrite degrees_full_turn, query_periodic. reflexivity.
Qed.

(** ** The synthesis *)

(** C1.  In every query, [calculateGravitationalUndulation] is called on
    the arrays the two preceding phases built and returns
    [a GM / (gr re) + ac / 100 - 0.53], where [a] is the sum over the
    degrees [2..360] of the degree's harmonic sum times
    [(equatorialRadius / re) ^ n], and [ac] is the correction sum plus
    the reference terms built from [p[2]], [p[3]] and the order-1
    longitude values. *)
Theorem undulation_closed_form (egm96Data : Z → Z → R) (lat lon : R) :
  let theta := colatitude lat lon in
  let gr := normal_gravity lat lon in
  let re := geocentric_radius lat lon in
  let L := λ n m, Pbar theta m n in
  let C := λ m, cos (IZR m * lon) in
  let S := λ m, sin (IZR m * lon) in
  let a :=
    big_sum 2 360
      (λ n, main_degree egm96Data L C S n * (6378137 / re) ^ Z.to_nat n)%R in
  let ac :=
    (big_sum 2 360 (correction_degree egm96Data L C S)
     + (egm96Data 1%Z 0%Z + L 1%Z 0%Z * egm96Data 2%Z 0%Z
        + L 1%Z 1%Z
          * (egm96Data 3%Z 0%Z * C 1%Z + egm96Data 3%Z 1%Z * S 1%Z)))%R in
  ∃ self p rleg sinml cosml,
    EGM96_new = Some self
    ∧ for_loop 1 361 (order_fill_body self theta 361)
        (uninit coeffsCount, uninit 362) = Some (p, rleg)
    ∧ computeTrigonometricSeriesForLongitude lon (uninit 362) (uninit 362)
      = Some (sinml, cosml)
    ∧ load p 2 = Some (L 1 0) ∧ load p 3 = Some (L 1 1)
    ∧ load cosml 1 = Some (C 1) ∧ load sinml 1 = Some (S 1)
    ∧ calculateGravitationalUndulation egm96Data p sinml cosml gr re
      = Some (a * 0.3986004418e15 / (gr * re) + ac / 100 - 0.53)%R
    ∧ calculateGeoidUndulationAtCoordinates egm96Data self lat lon
      = calculateGravitationalUndulation egm96Data p sinml cosml gr re.
Proof.
  cbv zeta.
  destruct EGM96_new_built as (self & Hnew & Ht).
  destruct (query_run egm96Data self lat lon Ht)
    as (p & rleg & sinml & cosml & Hfill & Htrig & Hp & _ & Hs & Hc & Hq).
  exists self, p, rleg, sinml, cosml.
  split; [exact Hnew|]. split; [exact Hfill|]. split; [exact Htrig|].
  split; [apply (Hp 1 0); lia|]. split; [apply (Hp 1 1); lia|].
  split; [apply Hc; lia|]. split; [apply Hs; lia|].
  split; [|exact Hq].
  apply (synthesis_correct egm96Data p sinml cosml
           (λ n m, Pbar (colatitude lat lon) m n)
           (λ m, cos (IZR m * lon)) (λ m, sin (IZR m * lon)) Hp Hs Hc).
Qed.



(** ** The public entry point *)

(** C8.  The constructor builds both tables in full; a query returns a
    value that depends on its arguments only and leaves the object as it
    found it, so that a second query with the same arguments returns the
    same value, the tables still being those the constructor built. *)
Theorem queries_deterministic_tables_unchanged (egm96Data : Z → Z → R) :
  ∃ self, EGM96_new = Some self
    ∧ tables_built self
    ∧ ∀ lat lon, ∃ v,
        egm96ComputeAltitudeOffset egm96Data self lat lon = Some (v, self)
        ∧ query_twice egm96Data self lat lon = Some (v, v, self).
Proof.
  destruct EGM96_new_built as (self & Hnew & Ht).
  exists self. split; [exact Hnew|]. split; [exact Ht|].
  intros lat lon. eexists. split.
  - apply entry_value. exact Ht.
  - unfold query_twice.
    rewrite (entry_value egm96Data self lat lon Ht), bind_Some.
    rewrite (entry_value egm96Data self lat lon Ht), bind_Some.
    reflexivity.
Qed.

(** *** Longitudes modulo 360° *)

Lemma longitude_mod_360_range lon :
  (0 <= longitude_mod_360 lon < 360)%R.
Proof.
  unfold longitude_mod_360.
  destruct (base_Int_part (lon / 360)) as [H1 H2].
  assert (H : (lon = 360 * (lon / 360))%R) by (field).
  set (q := (lon / 360)%R) in *. set (k := IZR (Int_part q)) in *.
  split; lra.
Qed.

Lemma sin_period_Z x (k : Z) : sin (x + 2 * IZR k * PI) = sin x.
Proof.
  destruct k as [|p|p].
  - f_equal. simpl. ring.
  - rewrite <- (sin_period x (Pos.to_nat p)). f_equal.
    rewrite INR_IZR_INZ, positive_nat_Z. reflexivity.
  - rewrite <- (sin_period (x + 2 * IZR (Z.neg p) * PI) (Pos.to_nat p)).
    f_equal. rewrite INR_IZR_INZ, positive_nat_Z.
    change (Z.neg p) with (- Z.pos p). rewrite opp_IZR. ring.
Qed.

Lemma cos_period_Z x (k : Z) : cos (x + 2 * IZR k * PI) = cos x.
Proof.
  destruct k as [|p|p].
  - f_equal. simpl. ring.
  - rewrite <- (cos_period x (Pos.to_nat p)). f_equal.
    rewrite INR_IZR_INZ, positive_nat_Z. reflexivity.
  - rewrite <- (cos_period (x + 2 * IZR (Z.neg p) * PI) (Pos.to_nat p)).
    f_equal. rewrite INR_IZR_INZ, positive_nat_Z.
    change (Z.neg p) with (- Z.pos p). rewrite opp_IZR. ring.
Qed.

Lemma query_longitude_turns egm96Data self lat lon (k : Z) :
  calculateGeoidUndulationAtCoordinates egm96Data self lat
    (lon + 2 * IZR k * PI)
  = calculateGeoidUndulationAtCoordinates egm96Data self lat lon.
Proof.
  unfold calculateGeoidUndulationAtCoordinates, computeGeocentricMetrics,
    computeTrigonometricSeriesForLongitude.
  rewrite sin_period_Z, cos_period_Z. reflexivity.
Qed.

Lemma degrees_mod_360 lon :
  (longitude_mod_360 lon / (180.0 / M_PI)
   = lon / (180.0 / M_PI) + 2 * IZR (- Int_part (lon / 360)) * PI)%R.
Proof.
  unfold longitude_mod_360, M_PI. rewrite opp_IZR.
  replace 180.0%R with 180%R by lra.
  pose proof PI_neq0 as H. field. exact H.
Qed.

(** C2, as amended.  At latitude [+90°] or [-90°] the entry point makes
    no check and reports no error: for every table and every longitude
    the call returns to the caller the value that the inner call
    [calculateGeoidUndulationAtCoordinates] returns at [lat / rad],
    [lon / rad], and leaves the object as it was.  Which number this is
    at the poles is not stated. *)
Theorem pole_query_reports_no_error (egm96Data : Z → Z → R) (lon : R) :
  ∃ self, EGM96_new = Some self
    ∧ (∃ v,
         calculateGeoidUndulationAtCoordinates egm96Data self
           (90 / (180.0 / M_PI)) (lon / (180.0 / M_PI)) = Some v
         ∧ egm96ComputeAltitudeOffset egm96Data self 90 lon = Some (v, self))
    ∧ (∃ v,
         calculateGeoidUndulationAtCoordinates egm96Data self
           (-90 / (180.0 / M_PI)) (lon / (180.0 / M_PI)) = Some v
         ∧ egm96ComputeAltitudeOffset egm96Data self (-90) lon
           = Some (v, self)).
Proof.
  destruct EGM96_new_built as (self & Hnew & Ht).
  exists self. split; [exact Hnew|].
  split; eexists; (split; [apply query_value; exact Ht|]);
    unfold egm96ComputeAltitudeOffset;
    rewrite query_value by exact Ht; rewrite bind_Some; reflexivity.
Qed.

(** C6, as amended.  The entry point rejects no latitude: for every
    latitude, inside [-90°, 90°] or not, and every longitude the call
    returns a value.  It accepts any longitude, and the value it returns
    is the one it returns for the longitude normalized modulo 360° into
    [[0°, 360°)], under exact-real semantics of [sin] and [cos]. *)
Theorem entry_point_rejects_no_latitude (egm96Data : Z → Z → R) :
  ∃ self, EGM96_new = Some self ∧
  ∀ lat lon,
    (0 <= longitude_mod_360 lon < 360)%R
    ∧ ∃ v,
        egm96ComputeAltitudeOffset egm96Data self lat lon = Some (v, self)
        ∧ egm96ComputeAltitudeOffset egm96Data self lat
            (longitude_mod_360 lon) = Some (v, self).
Proof.
  destruct EGM96_new_built as (self & Hnew & Ht).
  exists self. split; [exact Hnew|].
  intros lat lon. split; [apply longitude_mod_360_range|].
  eexists. split; [apply entry_value; exact Ht|].
  rewrite <- (entry_value egm96Data self lat lon Ht).
  unfold egm96ComputeAltitudeOffset.
  rewrite degrees_mod_360, query_longitude_turns. reflexivity.
Qed.

Example longitude_mod_360_of_725 : longitude_mod_360 725 = 5%R.
Proof.
  pose proof (longitude_mod_360_range 725) as [H1 H2].
  unfold longitude_mod_360 in *.
  assert (Hk : Int_part (725 / 360) = 2).
  { destruct (Z.eq_dec (Int_part (725 / 360)) 2) as [E|E]; [exact E|].
    exfalso.
    assert (Int_part (725 / 360) ≤ 1 ∨ 3 ≤ Int_part (725 / 360)) as [H|H]
      by lia; apply IZR_le in H; lra. }
  rewrite Hk. lra.
Qed.

(** *** Concrete runs with the all-zero table *)

Lemma big_sum_zero lo hi f : (∀ i, f i = 0%R) → big_sum lo hi f = 0%R.
Proof.
  intros Hf. unfold big_sum.
  induction (Z.to_nat (hi + 1 - lo)) as [|c IH]; [reflexivity|].
  cbn [sum_n]. rewrite IH, Hf. ring.
Qed.

Lemma geoid_undulation_zero_table lat lon :
  geoid_undulation zero_table lat lon = (-0.53)%R.
Proof.
  unfold geoid_undulation, undulation_value, main_sum, correction_sum,
    reference_terms.
  rewrite (big_sum_zero 2 360).
  2: { intros n. unfold main_degree. rewrite big_sum_zero.
       - unfold zero_table. ring.
       - intros m. unfold main_term, zero_table. ring. }
  rewrite (big_sum_zero 2 360).
  2: { intros n. unfold correction_degree. rewrite big_sum_zero.
       - unfold zero_table. ring.
       - intros m. unfold correction_term, zero_table. ring. }
  unfold zero_table, Rdiv.
  generalize 0.3986004418e15%R, (/ (normal_gravity lat lon * geocentric_radius lat lon))%R.
  intros g q. lra.
Qed.

(** C2, as stated, fails: with the all-zero table the query at latitude
    [90°], longitude [0°] reports no error and returns [-0.53]. *)
Lemma pole_query_is_not_rejected :
  ∃ self, EGM96_new = Some self
    ∧ egm96ComputeAltitudeOffset zero_table self 90 0
      = Some ((-0.53)%R, self).
Proof.
  destruct EGM96_new_built as (self & Hnew & Ht).
  exists self. split; [exact Hnew|].
  rewrite entry_value by exact Ht. rewrite geoid_undulation_zero_table.
  reflexivity.
Qed.

(** C6, as stated, fails: with the all-zero table the query at latitude
    [91°], outside [-90°, 90°], is not rejected and returns [-0.53]. *)
Lemma latitude_91_is_not_rejected :
  ∃ self, EGM96_new = Some self
    ∧ egm96ComputeAltitudeOffset zero_table self 91 0
      = Some ((-0.53)%R, self).
Proof.
  destruct EGM96_new_built as (self & Hnew & Ht).
  exists self. split; [exact Hnew|].
  rewrite entry_value by exact Ht. rewrite geoid_undulation_zero_table.
  reflexivity.
Qed.

(** * Further properties of the pipeline *)

(** ** The scaling tables and the longitude series *)

(** X1.  The constructor returns; [drts[n]] is [sqrt n], at least 1, and
    [dirt[n]] is its reciprocal, [drts[n] * dirt[n] = 1], for
    [n = 1..721]; cell 0 and the cells [722..1300] are never written. *)
Theorem constructor_tables :
  ∃ self, EGM96_new = Some self
    ∧ (∀ n, 1 ≤ n ≤ 721 →
         ∃ d r, load (drts self) n = Some d ∧ load (dirt self) n = Some r
                ∧ d = sqrt (IZR n) ∧ (1 <= d)%R ∧ (d * r = 1)%R)
    ∧ (∀ n, ¬ 1 ≤ n ≤ 721 →
         load (drts self) n = None ∧ load (dirt self) n = None).
Proof.
  destruct EGM96_new_built as (self & Hnew & Ht).
  exists self. split; [exact Hnew|]. split.
  - intros n Hn. exists (sqrt (IZR n)), (1 / sqrt (IZR n))%R.
    split; [apply load_drts; assumption|].
    split; [apply load_dirt; assumption|].
    split; [reflexivity|].
    assert (H1 : (1 <= IZR n)%R) by (apply IZR_le; lia).
    assert (Hd : (1 <= sqrt (IZR n))%R).
    { apply Rle_trans with (sqrt 1);
        [rewrite sqrt_1; lra | apply sqrt_le_1_alt; exact H1]. }
    split; [exact Hd|]. field. lra.
  - intros n Hn. destruct Ht as (_ & _ & Hcells).
    destruct (Hcells n) as [-> ->]. rewrite !decide_False by exact Hn.
    split; reflexivity.
Qed.

Lemma constructor_tables_witness :
  ∃ self d r,
    EGM96_new = Some self
    ∧ load (drts self) 721 = Some d ∧ load (dirt self) 721 = Some r
    ∧ (d * r = 1)%R
    ∧ load (drts self) 0 = None ∧ load (drts self) 722 = None.
Proof.
  destruct constructor_tables as (self & Hnew & Hin & Hout).
  destruct (Hin 721 ltac:(lia)) as (d & r & Hd & Hr & _ & _ & Hprod).
  exists self, d, r. split; [exact Hnew|]. split; [exact Hd|].
  split; [exact Hr|]. split; [exact Hprod|].
  split; [apply (Hout 0); lia | apply (Hout 722); lia].
Defined.

(** X2.  For any two arrays of 362 cells the function returns, leaves
    [sin (m λ)] and [cos (m λ)] in the cells [m = 1..360], and leaves
    cell 0 and cell 361 as they were. *)
Theorem trig_series_values (rlon : R) (sinml cosml : array) :
  cap sinml = 362 → cap cosml = 362 →
  ∃ s c,
    computeTrigonometricSeriesForLongitude rlon sinml cosml = Some (s, c)
    ∧ (∀ m, 1 ≤ m ≤ 360 →
         load s m = Some (sin (IZR m * rlon))
         ∧ load c m = Some (cos (IZR m * rlon)))
    ∧ (∀ i, ¬ 1 ≤ i ≤ 360 →
         load s i = load sinml i ∧ load c i = load cosml i).
Proof.
  intros Hcs0 Hcc0.
  unfold computeTrigonometricSeriesForLongitude. cbv zeta. do 4 step.
  pose (I := λ (m : Z) (st : array * array),
    cap st.1 = 362 ∧ cap st.2 = 362
    ∧ (∀ i, 1 ≤ i < m →
         load st.1 i = Some (sin (IZR i * rlon))
         ∧ load st.2 i = Some (cos (IZR i * rlon)))
    ∧ (∀ i, ¬ 1 ≤ i < m →
         load st.1 i = load sinml i ∧ load st.2 i = load cosml i)).
  match goal with
  | |- ∃ _ _, for_loop _ _ _ ?st = _ ∧ _ =>
      destruct (for_loop_invariant I 3 maxDeg (trig_body (cos rlon)) st)
        as ([s c] & Hrun & Hcs & Hcc & Hcells & Hframe)
  end.
  - unfold maxDeg. lia.
  - split; [exact Hcs0|]. split; [exact Hcc0|]. cbn [fst snd]. split.
    + intros i Hi. assert (i = 1 ∨ i = 2) as [-> | ->] by lia.
      * do 4 step. rewrite Rmult_1_l. split; reflexivity.
      * do 2 step. rewrite sin_2a, cos_2a_cos. split; f_equal; ring.
    + intros i Hi. rewrite !load_upd_ne by lia. split; reflexivity.
  - intros m [s c] Hm (Hcs & Hcc & Hcells & Hframe). cbn [fst snd] in *.
    unfold maxDeg in Hm. unfold trig_body. u32_simpl.
    destruct (Hcells (m - 1) ltac:(lia)) as [Hs1 Hc1].
    destruct (Hcells (m - 2) ltac:(lia)) as [Hs2 Hc2].
    rewrite Hs1, Hs2. cbn [mbind option_bind]. step.
    rewrite Hc1, Hc2. cbn [mbind option_bind]. step.
    eexists. split; [reflexivity|]. cbn [fst snd].
    split; [exact Hcs|]. split; [exact Hcc|]. split.
    + intros i Hi. cbn [fst snd]. destruct (decide (i = m)) as [->|Hne].
      * do 2 step. rewrite <- sin_three_term, <- cos_three_term.
        split; reflexivity.
      * do 2 step. apply Hcells. lia.
    + intros i Hi. cbn [fst snd]. rewrite !load_upd_ne by lia.
      apply Hframe. lia.
  - exists s, c. cbn [fst snd] in *. split; [exact Hrun|]. split.
    + intros m Hm. apply Hcells. unfold maxDeg. lia.
    + intros i Hi. apply Hframe. unfold maxDeg. lia.
Qed.

Lemma trig_series_values_witness :
  ∃ s c,
    computeTrigonometricSeriesForLongitude 1 (uninit 362) (uninit 362)
      = Some (s, c)
    ∧ load s 360 = Some (sin (360 * 1))
    ∧ load c 360 = Some (cos (360 * 1))
    ∧ load s 0 = None ∧ load s 361 = None.
Proof.
  destruct (trig_series_values 1 (uninit 362) (uninit 362)
              ltac:(reflexivity) ltac:(reflexivity))
    as (s & c & Hrun & Hv & Hf).
  exists s, c. split; [exact Hrun|].
  destruct (Hv 360 ltac:(lia)) as [Hs Hc].
  split; [exact Hs|]. split; [exact Hc|].
  destruct (Hf 0 ltac:(lia)) as [H0 _]. destruct (Hf 361 ltac:(lia)) as [H1 _].
  split; [exact H0 | exact H1].
Defined.

(** ** The Legendre values *)

Lemma sqrt_3_3 : (sqrt 3 * sqrt 3 = 3)%R.
Proof. apply sqrt_sqrt. lra. Qed.

Lemma sqrt_2_2 : (sqrt 2 * sqrt 2 = 2)%R.
Proof. apply sqrt_sqrt. lra. Qed.

Lemma sqrt_4 : sqrt 4 = 2%R.
Proof. replace 4%R with (2 * 2)%R by lra. apply sqrt_square. lra. Qed.

Lemma sqrt_5_3 : (sqrt 5 * sqrt 3 = sqrt 15)%R.
Proof. rewrite <- sqrt_mult by lra. f_equal. lra. Qed.

Lemma Pbar_0_2 theta :
  Pbar theta 0 2 = (sqrt 5 / 2 * (3 * (cos theta * cos theta) - 1))%R.
Proof.
  unfold Pbar. change (Z.to_nat (2 - 0)) with 2%nat.
  cbn [legendre_pair sectoral]. change (Z.to_nat 0) with 0%nat.
  cbn [sectoral fst]. unfold recurrence.
  change (IZR (2 * (0 + Z.of_nat 2) + 1)) with 5%R.
  change (IZR (0 + Z.of_nat 2 + 0)) with 2%R.
  change (IZR (0 + Z.of_nat 2 - 0)) with 2%R.
  change (IZR (2 * (0 + Z.of_nat 2) - 1)) with 3%R.
  change (IZR ((0 + 1) * 2 + 1)) with 3%R.
  change (IZR (0 + Z.of_nat 2 + 0 - 1)) with 1%R.
  change (IZR (0 + Z.of_nat 2 - 0 - 1)) with 1%R.
  change (IZR (2 * (0 + Z.of_nat 2) - 3)) with 1%R.
  rewrite sqrt_1.
  assert (H2 : sqrt 2 ≠ 0%R) by (pose proof sqrt_2_2; nra).
  transitivity (sqrt 5 / (sqrt 2 * sqrt 2)
                * (sqrt 3 * sqrt 3 * (cos theta * cos theta) - 1))%R.
  - field. exact H2.
  - rewrite sqrt_2_2, sqrt_3_3. reflexivity.
Qed.

Lemma Pbar_1_2 theta :
  Pbar theta 1 2 = (sqrt 15 * sin theta * cos theta)%R.
Proof.
  change 2 with (1 + 1). rewrite Pbar_next, Pbar_seed.
  change (sectoral (sin theta) (Z.to_nat 1)) with (sin theta * sqrt 3)%R.
  change (IZR ((1 + 1) * 2 + 1)) with 5%R.
  rewrite <- sqrt_5_3. ring.
Qed.

Lemma Pbar_2_2 theta :
  Pbar theta 2 2 = (sqrt 15 / 2 * (sin theta * sin theta))%R.
Proof.
  rewrite Pbar_seed. change (Z.to_nat 2) with 2%nat. cbn [sectoral].
  change (IZR (2 * Z.of_nat 2 + 1)) with 5%R.
  change (IZR (2 * Z.of_nat 2)) with 4%R.
  rewrite sqrt_4, <- sqrt_5_3. field.
Qed.

(** Reflection of the colatitude about the equator. *)
Lemma legendre_pair_reflect theta m j :
  legendre_pair (PI - theta) m j
  = (((-1) ^ j * (legendre_pair theta m j).1)%R,
     (- (-1) ^ j * (legendre_pair theta m j).2)%R).
Proof.
  induction j as [|j IH].
  - cbn [legendre_pair fst snd pow].
    rewrite sin_PI_x. f_equal; ring.
  - cbn [legendre_pair]. rewrite IH.
    destruct (legendre_pair theta m j) as [r1 r2]. cbn [fst snd].
    rewrite Rtrigo_facts.cos_pi_minus.
    destruct j as [|j]; unfold recurrence; f_equal; simpl pow; ring.
Qed.

Lemma Pbar_reflect theta m n :
  Pbar (PI - theta) m n = ((-1) ^ Z.to_nat (n - m) * Pbar theta m n)%R.
Proof. unfold Pbar. rewrite legendre_pair_reflect. reflexivity. Qed.

Lemma sectoral_zero k : (1 ≤ k)%nat → sectoral 0 k = 0%R.
Proof.
  destruct k as [|[|k]]; [lia| |]; intros _; cbn [sectoral]; ring.
Qed.

Lemma legendre_pair_zero theta m j :
  1 ≤ m → sin theta = 0%R → legendre_pair theta m j = (0%R, 0%R).
Proof.
  intros Hm Hs. induction j as [|j IH].
  - cbn [legendre_pair]. rewrite Hs, sectoral_zero by lia. reflexivity.
  - cbn [legendre_pair]. rewrite IH.
    destruct j; unfold recurrence; f_equal; ring.
Qed.

(** *** What the Legendre function writes *)

Lemma for_loop_first {S : Type} lo hi (body : Z → S → option S) s :
  lo ≤ hi → for_loop lo hi body s = body lo s ≫= for_loop (lo + 1) hi body.
Proof.
  intros H. unfold for_loop.
  replace (Z.to_nat (hi + 1 - lo))
    with (Datatypes.S (Z.to_nat (hi + 1 - (lo + 1)))) by lia.
  reflexivity.
Qed.

(** A relation that every returning iteration respects is respected by
    the returning loop. *)
Lemma for_loop_preserves {S : Type} (P : S → S → Prop) lo hi
    (body : Z → S → option S) s s' :
  (∀ t, P t t) → (∀ t u v, P t u → P u v → P t v) →
  (∀ i t t', lo ≤ i ≤ hi → body i t = Some t' → P t t') →
  for_loop lo hi body s = Some s' → P s s'.
Proof.
  intros Hrefl Htrans Hbody. unfold for_loop.
  remember (Z.to_nat (hi + 1 - lo)) as c eqn:Hc.
  revert lo s Hbody Hc. induction c as [|c IH]; intros lo s Hbody Hc Hrun.
  - injection Hrun as <-. apply Hrefl.
  - cbn [iterate] in Hrun.
    destruct (body lo s) as [t|] eqn:Hb; [|discriminate].
    cbn [mbind option_bind] in Hrun.
    apply Htrans with t.
    + apply (Hbody lo); [lia | exact Hb].
    + apply (IH (lo + 1)); [|lia|exact Hrun].
      intros i u u' Hi. apply Hbody. lia.
Qed.

Lemma same_below_refl b a : same_below b a a.
Proof. split; [reflexivity | intros; reflexivity]. Qed.

Lemma same_below_trans b a1 a2 a3 :
  same_below b a1 a2 → same_below b a2 a3 → same_below b a1 a3.
Proof.
  intros [Hc1 H1] [Hc2 H2]. split; [congruence|].
  intros i Hi. rewrite H2, H1 by exact Hi. reflexivity.
Qed.

Lemma store_same_below b a i v a' :
  b ≤ i → store a i v = Some a' → same_below b a a'.
Proof.
  intros Hi Hs. unfold store in Hs.
  destruct (decide (0 ≤ i < cap a)); [|discriminate].
  injection Hs as <-. split; [reflexivity|].
  intros j Hj. apply load_upd_ne. lia.
Qed.

(** Splits a returning sequence of binds at its head. *)
Ltac bind_inv H :=
  repeat match type of H with
    | (?mx ≫= _) = Some _ =>
        let E := fresh "E" in
        destruct mx eqn:E; cbn [mbind option_bind] in H; [|discriminate H]
    end.

Lemma recurrence_body_same_below self m cothet n1 t t' :
  recurrence_body self m cothet n1 t = Some t' → same_below n1 t t'.
Proof.
  unfold recurrence_body. cbv zeta. intros H.
  destruct (skip_guard m (n1 ⊖ 1)).
  - injection H as <-. apply same_below_refl.
  - bind_inv H. apply (store_same_below n1) in H; [exact H | lia].
Qed.

Lemma base_cases_same_below self m cothet rlnn rleg rleg' :
  0 ≤ m →
  base_cases self m cothet rlnn rleg = Some rleg' →
  same_below (m + 1) rleg rleg'.
Proof.
  intros Hm H. unfold base_cases in H.
  destruct m as [|[p|p|]|p]; try (injection H as <-; apply same_below_refl).
  - bind_inv H. apply (store_same_below (0 + 1)) in E; [|lia].
    apply (store_same_below (0 + 1)) in H; [|lia].
    eapply same_below_trans; [exact E | exact H].
  - bind_inv H. apply (store_same_below (1 + 1)) in E0; [|lia].
    apply (store_same_below (1 + 1)) in H; [|lia].
    eapply same_below_trans; [exact E0 | exact H].
Qed.

Lemma same_below_weaken b b' a a' :
  b ≤ b' → same_below b' a a' → same_below b a a'.
Proof. intros Hb [Hc H]. split; [exact Hc|]. intros i Hi. apply H. lia. Qed.

Lemma legendre_same_below self m theta rleg rleg' :
  0 ≤ m ≤ 360 →
  computeNormalizedLegendreFunctions self m theta rleg = Some rleg' →
  same_below (m + 1) rleg rleg'.
Proof.
  intros Hm H. unfold computeNormalizedLegendreFunctions in H. cbv zeta in H.
  rewrite maxDeg_plus_1 in H.
  assert (H1 : m ⊕ 1 = m + 1) by (u32_simpl; reflexivity).
  assert (H2 : m ⊕ 2 = m + 2) by (u32_simpl; reflexivity).
  assert (H3 : m ⊕ 3 = m + 3) by (u32_simpl; reflexivity).
  rewrite H1, H2, H3 in H.
  bind_inv H.
  apply base_cases_same_below in E3; [|lia].
  apply store_same_below with (b := m + 1) in E5; [|lia].
  pose proof (same_below_trans _ _ _ _ E3 E5) as Hstart.
  destruct (decide (m + 2 ≤ 361)).
  - bind_inv H.
    apply store_same_below with (b := m + 1) in E8; [|lia].
    pose proof (same_below_trans _ _ _ _ Hstart E8) as Hnext.
    destruct (decide (m + 3 ≤ 361)).
    + eapply same_below_trans; [exact Hnext|].
      revert H. apply for_loop_preserves.
      * apply same_below_refl.
      * apply same_below_trans.
      * intros i t t' Hi Hb. apply recurrence_body_same_below in Hb.
        revert Hb. apply same_below_weaken. lia.
    + injection H as <-. exact Hnext.
  - injection H as <-. exact Hstart.
Qed.

Lemma iterate_app {S : Type} (a b : nat) i (body : Z → S → option S) s :
  iterate (a + b) i body s
  = iterate a i body s ≫= iterate b (i + Z.of_nat a) body.
Proof.
  revert i s. induction a as [|a IH]; intros i s.
  - cbn [iterate Nat.add mbind option_bind]. f_equal. lia.
  - cbn [iterate Nat.add]. destruct (body i s) as [t|]; [|reflexivity].
    cbn [mbind option_bind]. rewrite IH. do 2 f_equal. lia.
Qed.

Lemma for_loop_split {S : Type} lo mid hi (body : Z → S → option S) s :
  lo ≤ mid + 1 → mid ≤ hi →
  for_loop lo hi body s
  = for_loop lo mid body s ≫= for_loop (mid + 1) hi body.
Proof.
  intros H1 H2. unfold for_loop.
  replace (Z.to_nat (hi + 1 - lo))
    with (Z.to_nat (mid + 1 - lo) + Z.to_nat (hi + 1 - (mid + 1)))%nat by lia.
  rewrite iterate_app. do 2 f_equal. lia.
Qed.

(** An order above [maxDeg]: the sectoral loop reaches [n1 = 362] and
    reads [drts[723]], which the constructor never wrote; for the largest
    [u32] the sum [m + 1] wraps to 0 and [rlnn[0]] is read unwritten. *)
Lemma legendre_order_too_large self m theta rleg :
  tables_built self → 361 ≤ m < 4294967296 →
  computeNormalizedLegendreFunctions self m theta rleg = None.
Proof.
  intros Ht Hm. unfold computeNormalizedLegendreFunctions. cbv zeta.
  rewrite maxDeg_plus_2. do 3 step.
  destruct (decide (m = 4294967295)) as [->|Hne].
  - change (4294967295 ⊕ 1) with 0. rewrite for_loop_empty by lia.
    rewrite bind_Some. change (base_cases self 4294967295 (cos theta)
      (upd (upd (uninit 362) 1 1) 2 (sin theta * sqrt 3)) rleg)
      with (Some rleg).
    rewrite bind_Some. rewrite !load_upd_ne by lia. rewrite load_uninit.
    reflexivity.
  - assert (H1 : m ⊕ 1 = m + 1) by (u32_simpl; reflexivity).
    rewrite H1. rewrite (for_loop_split 3 361 (m + 1)) by lia.
    destruct (sectoral_loop self (sin theta) 361 Ht ltac:(lia))
      as (rlnn & -> & _ & _).
    rewrite bind_Some.
    rewrite for_loop_first by lia.
    assert (Hb : sectoral_body self (sin theta) (361 + 1) rlnn = None).
    { unfold sectoral_body. cbv zeta.
      change (2 ⊗ (361 + 1 ⊖ 1) ⊕ 1) with 723.
      destruct Ht as (_ & _ & Hcells). destruct (Hcells 723) as [-> _].
      reflexivity. }
    rewrite Hb. reflexivity.
Qed.

(** X3.  The first values are the fully normalized associated Legendre
    functions of the textbooks: [1], [√3 cos θ], [√5 (3 cos² θ - 1) / 2]
    for order 0, [√3 sin θ], [√15 sin θ cos θ] for order 1 and
    [√15 sin² θ / 2] for order 2. *)
Theorem legendre_low_degree_values (theta : R) :
  ∃ self, EGM96_new = Some self ∧
  ∀ rleg, cap rleg = 362 →
    (∃ r0, computeNormalizedLegendreFunctions self 0 theta rleg = Some r0
       ∧ load r0 1 = Some 1%R
       ∧ load r0 2 = Some (sqrt 3 * cos theta)%R
       ∧ load r0 3
         = Some (sqrt 5 / 2 * (3 * (cos theta * cos theta) - 1))%R)
    ∧ (∃ r1, computeNormalizedLegendreFunctions self 1 theta rleg = Some r1
         ∧ load r1 2 = Some (sqrt 3 * sin theta)%R
         ∧ load r1 3 = Some (sqrt 15 * sin theta * cos theta)%R)
    ∧ (∃ r2, computeNormalizedLegendreFunctions self 2 theta rleg = Some r2
         ∧ load r2 3 = Some (sqrt 15 / 2 * (sin theta * sin theta))%R).
Proof.
  destruct EGM96_new_built as (self & Hnew & Ht).
  exists self. split; [exact Hnew|]. intros rleg Hcap.
  split; [|split].
  - destruct (legendre_correct self 0 theta rleg Ht ltac:(lia) Hcap)
      as (r0 & Hrun & _ & Hv).
    exists r0. split; [exact Hrun|].
    rewrite (Hv 0 ltac:(lia) : load r0 1 = _).
    rewrite (Hv 1 ltac:(lia) : load r0 2 = _).
    rewrite (Hv 2 ltac:(lia) : load r0 3 = _).
    split; [reflexivity|]. split.
    + f_equal. change 1 with (0 + 1) at 1. rewrite Pbar_next, Pbar_seed.
      change (sectoral (sin theta) (Z.to_nat 0)) with 1%R.
      change (IZR ((0 + 1) * 2 + 1)) with 3%R. ring.
    + f_equal. apply Pbar_0_2.
  - destruct (legendre_correct self 1 theta rleg Ht ltac:(lia) Hcap)
      as (r1 & Hrun & _ & Hv).
    exists r1. split; [exact Hrun|].
    rewrite (Hv 1 ltac:(lia) : load r1 2 = _).
    rewrite (Hv 2 ltac:(lia) : load r1 3 = _).
    split.
    + f_equal. rewrite Pbar_seed.
      change (sectoral (sin theta) (Z.to_nat 1)) with (sin theta * sqrt 3)%R.
      ring.
    + f_equal. apply Pbar_1_2.
  - destruct (legendre_correct self 2 theta rleg Ht ltac:(lia) Hcap)
      as (r2 & Hrun & _ & Hv).
    exists r2. split; [exact Hrun|].
    rewrite (Hv 2 ltac:(lia) : load r2 3 = _).
    f_equal. apply Pbar_2_2.
Qed.

Lemma legendre_low_degree_values_witness :
  ∃ self r0,
    EGM96_new = Some self
    ∧ computeNormalizedLegendreFunctions self 0 0 (uninit 362) = Some r0
    ∧ load r0 3 = Some (sqrt 5 / 2 * (3 * (cos 0 * cos 0) - 1))%R.
Proof.
  destruct (legendre_low_degree_values 0) as (self & Hnew & H).
  destruct (H (uninit 362) ltac:(reflexivity))
    as ((r0 & Hrun & _ & _ & Hv) & _).
  exists self, r0. split; [exact Hnew|]. split; [exact Hrun | exact Hv].
Defined.

(** X4.  Reflecting the colatitude about the equator, [θ ↦ π - θ],
    multiplies the value of degree [n] and order [m] by
    [(-1) ^ (n - m)]. *)
Theorem legendre_reflection_parity :
  ∃ self, EGM96_new = Some self ∧
  ∀ m theta rleg rleg', 0 ≤ m ≤ 360 → cap rleg = 362 → cap rleg' = 362 →
  ∃ r r',
    computeNormalizedLegendreFunctions self m theta rleg = Some r
    ∧ computeNormalizedLegendreFunctions self m (PI - theta) rleg' = Some r'
    ∧ ∀ n, m ≤ n ≤ 360 →
        ∃ v, load r (n + 1) = Some v
             ∧ load r' (n + 1) = Some ((-1) ^ Z.to_nat (n - m) * v)%R.
Proof.
  destruct EGM96_new_built as (self & Hnew & Ht).
  exists self. split; [exact Hnew|].
  intros m theta rleg rleg' Hm Hcap Hcap'.
  destruct (legendre_correct self m theta rleg Ht Hm Hcap)
    as (r & Hrun & _ & Hv).
  destruct (legendre_correct self m (PI - theta) rleg' Ht Hm Hcap')
    as (r' & Hrun' & _ & Hv').
  exists r, r'. split; [exact Hrun|]. split; [exact Hrun'|].
  intros n Hn. exists (Pbar theta m n). split; [apply Hv; exact Hn|].
  rewrite Hv' by exact Hn. rewrite Pbar_reflect. reflexivity.
Qed.

Lemma legendre_reflection_parity_witness :
  ∃ self r r' v,
    EGM96_new = Some self
    ∧ computeNormalizedLegendreFunctions self 1 1 (uninit 362) = Some r
    ∧ computeNormalizedLegendreFunctions self 1 (PI - 1) (uninit 362)
      = Some r'
    ∧ load r (2 + 1) = Some v
    ∧ load r' (2 + 1) = Some ((-1) ^ Z.to_nat (2 - 1) * v)%R.
Proof.
  destruct legendre_reflection_parity as (self & Hnew & H).
  destruct (H 1 1%R (uninit 362) (uninit 362) ltac:(lia)
              ltac:(reflexivity) ltac:(reflexivity))
    as (r & r' & Hrun & Hrun' & Hv).
  destruct (Hv 2 ltac:(lia)) as (v & H1 & H2).
  exists self, r, r', v. split; [exact Hnew|]. split; [exact Hrun|].
  split; [exact Hrun'|]. split; [exact H1 | exact H2].
Defined.

(** X5.  Where [sin θ = 0], every value of order [m ≥ 1] is zero. *)
Theorem legendre_vanishes_on_axis :
  ∃ self, EGM96_new = Some self ∧
  ∀ m theta rleg, 1 ≤ m ≤ 360 → sin theta = 0%R → cap rleg = 362 →
  ∃ r,
    computeNormalizedLegendreFunctions self m theta rleg = Some r
    ∧ ∀ n, m ≤ n ≤ 360 → load r (n + 1) = Some 0%R.
Proof.
  destruct EGM96_new_built as (self & Hnew & Ht).
  exists self. split; [exact Hnew|].
  intros m theta rleg Hm Hs Hcap.
  destruct (legendre_correct self m theta rleg Ht ltac:(lia) Hcap)
    as (r & Hrun & _ & Hv).
  exists r. split; [exact Hrun|].
  intros n Hn. rewrite Hv by exact Hn. unfold Pbar.
  rewrite legendre_pair_zero by (lia || exact Hs). reflexivity.
Qed.

Lemma legendre_vanishes_on_axis_witness :
  ∃ self r,
    EGM96_new = Some self
    ∧ computeNormalizedLegendreFunctions self 1 0 (uninit 362) = Some r
    ∧ load r (360 + 1) = Some 0%R.
Proof.
  destruct legendre_vanishes_on_axis as (self & Hnew & H).
  destruct (H 1 0%R (uninit 362) ltac:(lia) sin_0 ltac:(reflexivity))
    as (r & Hrun & Hv).
  exists self, r. split; [exact Hnew|]. split; [exact Hrun|].
  apply (Hv 360). lia.
Defined.

(** X6.  The function writes no cell of [rleg] below index [m + 1]: the
    values of lower degrees left by earlier calls stay, and the capacity
    is kept. *)
Theorem legendre_keeps_lower_cells :
  ∃ self, EGM96_new = Some self ∧
  ∀ m theta rleg, 0 ≤ m ≤ 360 → cap rleg = 362 →
  ∃ r,
    computeNormalizedLegendreFunctions self m theta rleg = Some r
    ∧ cap r = 362
    ∧ ∀ i, i < m + 1 → load r i = load rleg i.
Proof.
  destruct EGM96_new_built as (self & Hnew & Ht).
  exists self. split; [exact Hnew|].
  intros m theta rleg Hm Hcap.
  destruct (legendre_correct self m theta rleg Ht Hm Hcap)
    as (r & Hrun & Hc & _).
  exists r. split; [exact Hrun|]. split; [exact Hc|].
  apply (legendre_same_below self m theta rleg r Hm Hrun).
Qed.

Lemma legendre_keeps_lower_cells_witness :
  ∃ self r,
    EGM96_new = Some self
    ∧ computeNormalizedLegendreFunctions self 360 0 (upd (uninit 362) 5 7)
      = Some r
    ∧ load r 5 = load (upd (uninit 362) 5 7) 5.
Proof.
  destruct legendre_keeps_lower_cells as (self & Hnew & H).
  destruct (H 360 0%R (upd (uninit 362) 5 7) ltac:(lia) ltac:(reflexivity))
    as (r & Hrun & _ & Hv).
  exists self, r. split; [exact Hnew|]. split; [exact Hrun|].
  apply Hv. lia.
Defined.

(** X7.  The order must not exceed [maxDeg]: for every larger [u32]
    order the function reads a cell that was never written (undefined
    behaviour in the source). *)
Theorem legendre_order_above_maxDeg_fails :
  ∃ self, EGM96_new = Some self ∧
  ∀ m theta rleg, 361 ≤ m < 4294967296 →
    computeNormalizedLegendreFunctions self m theta rleg = None.
Proof.
  destruct EGM96_new_built as (self & Hnew & Ht).
  exists self. split; [exact Hnew|].
  intros m theta rleg Hm. apply legendre_order_too_large; assumption.
Qed.

Lemma legendre_order_above_maxDeg_fails_witness :
  ∃ self, EGM96_new = Some self
    ∧ computeNormalizedLegendreFunctions self 361 0 (uninit 362) = None.
Proof.
  destruct legendre_order_above_maxDeg_fails as (self & Hnew & H).
  exists self. split; [exact Hnew|]. apply H. lia.
Defined.

(** ** The ellipsoid metrics *)

Lemma horizontal_square t lon :
  (t * cos lon * (t * cos lon) + t * sin lon * (t * sin lon) = t * t)%R.
Proof.
  pose proof (sin2_cos2 lon) as H. unfold Rsqr in H.
  replace (t * cos lon * (t * cos lon) + t * sin lon * (t * sin lon))%R
    with (t * t * (sin lon * sin lon + cos lon * cos lon))%R by ring.
  rewrite H. ring.
Qed.

(** X8.  The three results of [computeGeocentricMetrics] do not depend
    on the longitude. *)
Theorem geocentric_metrics_longitude_free (lat lon lon' : R) :
  computeGeocentricMetrics lat lon = computeGeocentricMetrics lat lon'.
Proof.
  unfold computeGeocentricMetrics. cbv zeta.
  rewrite !horizontal_square. reflexivity.
Qed.

(** The denominator [1 - e2 sin² φ] lies in [[1 - e2, 1]]. *)
Lemma denominator_range lat :
  (1 - 0.00669437999013
   <= 1 - 0.00669437999013 * (sin lat * sin lat) <= 1)%R.
Proof.
  pose proof (sin2_cos2 lat) as H. unfold Rsqr in H.
  pose proof (Rle_0_sqr (sin lat)) as Hs. unfold Rsqr in Hs.
  pose proof (Rle_0_sqr (cos lat)) as Hc. unfold Rsqr in Hc.
  split; nra.
Qed.

(** X11.  Changing the sign of the latitude changes the sign of the
    geocentric latitude and leaves the normal gravity and the geocentric
    radius as they are. *)
Theorem geocentric_metrics_latitude_symmetry (lat lon : R) :
  computeGeocentricMetrics (- lat) lon
  = ((- (computeGeocentricMetrics lat lon).1.1)%R,
     (computeGeocentricMetrics lat lon).1.2,
     (computeGeocentricMetrics lat lon).2).
Proof.
  unfold computeGeocentricMetrics. cbv zeta. cbn [fst snd].
  rewrite sin_neg, cos_neg.
  replace (- sin lat * - sin lat)%R with (sin lat * sin lat)%R by ring.
  f_equal; [f_equal|].
  - rewrite <- atan_opp. f_equal. unfold Rdiv. ring.
  - f_equal. ring.
Qed.

Lemma sqrt_denominator lat :
  (0 < sqrt (1 - 0.00669437999013 * (sin lat * sin lat)) <= 1)%R.
Proof.
  pose proof (denominator_range lat) as [Hlo Hhi]. split.
  - apply sqrt_lt_R0. lra.
  - apply Rle_trans with (sqrt 1);
      [apply sqrt_le_1_alt; exact Hhi | rewrite sqrt_1; lra].
Qed.

(** The square of the radius: [n² (cos² φ + (1 - e2)² sin² φ)] with
    [n² = a² / (1 - e2 sin² φ)]. *)
Lemma radius_square lat lon :
  let e2 := 0.00669437999013%R in
  let W := (1 - e2 * (sin lat * sin lat))%R in
  geocentric_radius lat lon
  = sqrt (6378137 * 6378137
          * ((cos lat * cos lat + (1 - e2) * (1 - e2) * (sin lat * sin lat))
             / W)).
Proof.
  cbv zeta. unfold geocentric_radius, computeGeocentricMetrics. cbv zeta.
  cbn [snd]. rewrite horizontal_square.
  replace 6378137.0%R with 6378137%R by lra.
  replace 1.0%R with 1%R by lra.
  pose proof (sqrt_denominator lat) as [Hpos _].
  pose proof (denominator_range lat) as [Hlo _].
  set (W := (1 - 0.00669437999013 * (sin lat * sin lat))%R) in *.
  assert (HW : (sqrt W * sqrt W = W)%R) by (apply sqrt_sqrt; lra).
  f_equal.
  replace (6378137 * 6378137
           * ((cos lat * cos lat
               + (1 - 0.00669437999013) * (1 - 0.00669437999013)
                 * (sin lat * sin lat)) / W))%R
    with (6378137 * 6378137
           * ((cos lat * cos lat
               + (1 - 0.00669437999013) * (1 - 0.00669437999013)
                 * (sin lat * sin lat)) / (sqrt W * sqrt W)))%R
    by (rewrite HW; reflexivity).
  field. lra.
Qed.

(** The ratio [(cos² φ + (1 - e2)² sin² φ) / (1 - e2 sin² φ)] lies in
    [[1 - e2, 1]]. *)
Lemma radius_ratio_range lat :
  let e2 := 0.00669437999013%R in
  (1 - e2
   <= (cos lat * cos lat + (1 - e2) * (1 - e2) * (sin lat * sin lat))
      / (1 - e2 * (sin lat * sin lat))
   <= 1)%R.
Proof.
  cbv zeta.
  pose proof (denominator_range lat) as [Hlo Hhi].
  pose proof (sin2_cos2 lat) as H. unfold Rsqr in H.
  pose proof (Rle_0_sqr (sin lat)) as Hs. unfold Rsqr in Hs.
  pose proof (Rle_0_sqr (cos lat)) as Hc. unfold Rsqr in Hc.
  set (W := (1 - 0.00669437999013 * (sin lat * sin lat))%R) in *.
  assert (HW : (0 < W)%R) by lra.
  split.
  - apply Rmult_le_reg_r with W; [exact HW|].
    unfold Rdiv. rewrite Rmult_assoc, Rinv_l by lra. unfold W. nra.
  - apply Rmult_le_reg_r with W; [exact HW|].
    unfold Rdiv. rewrite Rmult_assoc, Rinv_l by lra. unfold W. nra.
Qed.

(** X9.  For every latitude the geocentric radius lies between the
    polar and the equatorial radius, [6356752 <= re <= 6378137], the
    normal gravity between its equatorial and polar values,
    [9.7803253359 <= gr <= 9.8322], and the product [gr * re] by which
    the synthesis divides is positive. *)
Theorem geocentric_radius_and_gravity_bounds (lat lon : R) :
  (6356752 <= geocentric_radius lat lon <= 6378137)%R
  ∧ (9.7803253359 <= normal_gravity lat lon <= 9.8322)%R
  ∧ (0 < normal_gravity lat lon * geocentric_radius lat lon)%R.
Proof.
  assert (Hre : (6356752 <= geocentric_radius lat lon <= 6378137)%R).
  { rewrite radius_square. cbv zeta.
    pose proof (radius_ratio_range lat) as [Hlo Hhi]. cbv zeta in Hlo, Hhi.
    set (r := ((cos lat * cos lat
                + (1 - 0.00669437999013) * (1 - 0.00669437999013)
                  * (sin lat * sin lat))
               / (1 - 0.00669437999013 * (sin lat * sin lat)))%R) in *.
    split.
    - apply Rle_trans with (sqrt (6356752 * 6356752));
        [rewrite sqrt_square by lra; lra | apply sqrt_le_1_alt; nra].
    - apply Rle_trans with (sqrt (6378137 * 6378137));
        [apply sqrt_le_1_alt; nra | rewrite sqrt_square by lra; lra]. }
  assert (Hgr : (9.7803253359 <= normal_gravity lat lon <= 9.8322)%R).
  { unfold normal_gravity, computeGeocentricMetrics. cbv zeta. cbn [fst snd].
    pose proof (sqrt_denominator lat) as [Hpos Hle1].
    pose proof (denominator_range lat) as [Hlo Hhi].
    pose proof (Rle_0_sqr (sin lat)) as Hs. unfold Rsqr in Hs.
    pose proof (sin2_cos2 lat) as H. unfold Rsqr in H.
    pose proof (Rle_0_sqr (cos lat)) as Hc. unfold Rsqr in Hc.
    set (W := (1 - 0.00669437999013 * (sin lat * sin lat))%R) in *.
    assert (Hsq : (0.996647 <= sqrt W)%R).
    { apply Rle_trans with (sqrt (0.996647 * 0.996647));
        [rewrite sqrt_square by lra; lra | apply sqrt_le_1_alt; lra]. }
    set (t1 := (sin lat * sin lat)%R) in *.
    assert (Ht1 : (0 <= t1 <= 1)%R) by lra.
    split.
    - apply Rmult_le_reg_r with (sqrt W); [exact Hpos|].
      unfold Rdiv. rewrite Rmult_assoc, Rinv_l by lra. nra.
    - apply Rmult_le_reg_r with (sqrt W); [exact Hpos|].
      unfold Rdiv. rewrite Rmult_assoc, Rinv_l by lra. nra. }
  split; [exact Hre|]. split; [exact Hgr|]. nra.
Qed.

(** X10.  Away from the poles, where [cos φ > 0], the geocentric
    latitude is [atan ((1 - e²) tan φ)]. *)
Theorem geocentric_latitude_formula (lat lon : R) :
  (0 < cos lat)%R →
  (computeGeocentricMetrics lat lon).1.1
  = atan ((1 - 0.00669437999013) * tan lat).
Proof.
  intros Hcos. unfold computeGeocentricMetrics. cbv zeta. cbn [fst snd].
  rewrite horizontal_square.
  replace 6378137.0%R with 6378137%R by lra.
  replace 1.0%R with 1%R by lra.
  pose proof (sqrt_denominator lat) as [Hpos _].
  set (W := (1 - 0.00669437999013 * (sin lat * sin lat))%R) in *.
  assert (Hn : (0 < 6378137 / sqrt W)%R)
    by (apply Rdiv_lt_0_compat; lra).
  rewrite sqrt_square by nra.
  f_equal. unfold tan. field. split; lra.
Qed.

Lemma geocentric_latitude_formula_witness :
  (computeGeocentricMetrics 0 0).1.1 = atan ((1 - 0.00669437999013) * tan 0).
Proof.
  apply geocentric_latitude_formula. rewrite cos_0. lra.
Defined.

(** ** The synthesis as a function of the coefficient table *)

Lemma big_sum_ext lo hi f g :
  (∀ i, lo ≤ i ≤ hi → f i = g i) → big_sum lo hi f = big_sum lo hi g.
Proof.
  intros H. unfold big_sum.
  assert (Hgen : ∀ c : nat, (c ≤ Z.to_nat (hi + 1 - lo))%nat →
            sum_n c lo f = sum_n c lo g).
  { induction c as [|c IH]; intros Hc; [reflexivity|].
    cbn [sum_n]. rewrite IH by lia. rewrite H by lia. reflexivity. }
  apply Hgen. lia.
Qed.

Lemma big_sum_combine lo hi f g t :
  big_sum lo hi (λ i, f i + t * g i)%R
  = (big_sum lo hi f + t * big_sum lo hi g)%R.
Proof.
  unfold big_sum. induction (Z.to_nat (hi + 1 - lo)) as [|c IH].
  - cbn [sum_n]. ring.
  - cbn [sum_n]. rewrite IH. ring.
Qed.

Section Linearity.

Variables d1 d2 : Z → Z → R.
Variable t : R.
Variable L : Z → Z → R.
Variables C S : Z → R.

Let d : Z → Z → R := λ k c, (d1 k c + t * d2 k c)%R.

Lemma main_degree_combine n :
  main_degree d L C S n
  = (main_degree d1 L C S n + t * main_degree d2 L C S n)%R.
Proof.
  unfold main_degree.
  rewrite (big_sum_ext 1 n (main_term d L C S n)
             (λ m, main_term d1 L C S n m + t * main_term d2 L C S n m)%R).
  - rewrite big_sum_combine. unfold d. ring.
  - intros m _. unfold main_term, d. ring.
Qed.

Lemma correction_degree_combine n :
  correction_degree d L C S n
  = (correction_degree d1 L C S n + t * correction_degree d2 L C S n)%R.
Proof.
  unfold correction_degree.
  rewrite (big_sum_ext 1 n (correction_term d L C S n)
             (λ m, correction_term d1 L C S n m
                   + t * correction_term d2 L C S n m)%R).
  - rewrite big_sum_combine. unfold d. ring.
  - intros m _. unfold correction_term, d. ring.
Qed.

Lemma undulation_value_combine gr re :
  undulation_value d L C S gr re
  = (undulation_value d1 L C S gr re
     + t * (undulation_value d2 L C S gr re + 0.53))%R.
Proof.
  unfold undulation_value, main_sum, correction_sum.
  rewrite (big_sum_ext 2 360
             (λ n, main_degree d L C S n * (6378137 / re) ^ Z.to_nat n)%R
             (λ n, main_degree d1 L C S n * (6378137 / re) ^ Z.to_nat n
                   + t * (main_degree d2 L C S n
                          * (6378137 / re) ^ Z.to_nat n))%R).
  2: { intros n _. rewrite main_degree_combine. ring. }
  rewrite (big_sum_ext 2 360 (correction_degree d L C S)
             (λ n, correction_degree d1 L C S n
                   + t * correction_degree d2 L C S n)%R).
  2: { intros n _. apply correction_degree_combine. }
  rewrite !big_sum_combine.
  unfold reference_terms, d, Rdiv.
  generalize 0.3986004418e15%R, 0.53%R. intros g o. ring.
Qed.

End Linearity.

(** X12.  Apart from the constant [-0.53] the value of a query is linear
    in the coefficient table: for the table [d1 + t d2] it is the value
    for [d1] plus [t] times the value for [d2] raised by [0.53]. *)
Theorem undulation_linear_in_coefficients (d1 d2 : Z → Z → R) (t : R) :
  ∃ self, EGM96_new = Some self ∧
  ∀ lat lon, ∃ v1 v2,
    calculateGeoidUndulationAtCoordinates d1 self lat lon = Some v1
    ∧ calculateGeoidUndulationAtCoordinates d2 self lat lon = Some v2
    ∧ calculateGeoidUndulationAtCoordinates
        (λ k c, d1 k c + t * d2 k c)%R self lat lon
      = Some (v1 + t * (v2 + 0.53))%R.
Proof.
  destruct EGM96_new_built as (self & Hnew & Ht).
  exists self. split; [exact Hnew|]. intros lat lon.
  exists (geoid_undulation d1 lat lon), (geoid_undulation d2 lat lon).
  rewrite !query_value by exact Ht. split; [reflexivity|].
  split; [reflexivity|]. f_equal. apply undulation_value_combine.
Qed.

(** *** What the synthesis reads *)

Lemma for_loop_ext {S : Type} (I : Z → S → Prop) lo hi
    (b1 b2 : Z → S → option S) s :
  I lo s →
  (∀ i t, lo ≤ i ≤ hi → I i t → b1 i t = b2 i t) →
  (∀ i t t', lo ≤ i ≤ hi → I i t → b2 i t = Some t' → I (i + 1) t') →
  for_loop lo hi b1 s = for_loop lo hi b2 s.
Proof.
  intros H0 Heq Hpres. unfold for_loop.
  remember (Z.to_nat (hi + 1 - lo)) as c eqn:Hc.
  revert lo s H0 Heq Hpres Hc.
  induction c as [|c IH]; intros lo s H0 Heq Hpres Hc; [reflexivity|].
  cbn [iterate]. rewrite (Heq lo s ltac:(lia) H0).
  destruct (b2 lo s) as [t|] eqn:Hb; [|reflexivity].
  cbn [mbind option_bind]. apply IH.
  - apply (Hpres lo s t); [lia | exact H0 | exact Hb].
  - intros i u Hi. apply Heq. lia.
  - intros i u u' Hi. apply Hpres. lia.
  - lia.
Qed.

Lemma for_loop_post {S : Type} (I : Z → S → Prop) lo hi
    (body : Z → S → option S) s s' :
  lo ≤ hi + 1 → I lo s →
  (∀ i t t', lo ≤ i ≤ hi → I i t → body i t = Some t' → I (i + 1) t') →
  for_loop lo hi body s = Some s' → I (hi + 1) s'.
Proof.
  intros Hle H0 Hpres. unfold for_loop.
  remember (Z.to_nat (hi + 1 - lo)) as c eqn:Hc.
  revert lo s Hle H0 Hpres Hc.
  induction c as [|c IH]; intros lo s Hle H0 Hpres Hc Hrun.
  - injection Hrun as <-. replace (hi + 1) with lo by lia. exact H0.
  - cbn [iterate] in Hrun.
    destruct (body lo s) as [t|] eqn:Hb; [|discriminate].
    cbn [mbind option_bind] in Hrun.
    apply (IH (lo + 1) t); [lia| | |lia|exact Hrun].
    + apply (Hpres lo s t); [lia | exact H0 | exact Hb].
    + intros i u u' Hi. apply Hpres. lia.
Qed.

Section Reads.

Variables d d' : Z → Z → R.
Variables p p' sinml sinml' cosml cosml' : array.

Hypothesis d_rows : ∀ k c, 1 ≤ k ≤ 65341 → d' k c = d k c.
Hypothesis p_cells : ∀ k, 2 ≤ k ≤ 65341 → load p' k = load p k.
Hypothesis sinml_cells : ∀ m, 1 ≤ m ≤ 360 → load sinml' m = load sinml m.
Hypothesis cosml_cells : ∀ m, 1 ≤ m ≤ 360 → load cosml' m = load cosml m.

Lemma order_body_counter m k sumc sum t' :
  0 ≤ k < 65341 →
  order_body d p sinml cosml m (k, sumc, sum) = Some t' → t'.1.1 = k + 1.
Proof.
  intros Hk H. unfold order_body in H. cbv zeta in H. bind_inv H.
  injection H as <-. cbn [fst]. u32_simpl. reflexivity.
Qed.

Lemma order_body_agree m k sumc sum :
  1 ≤ m ≤ 360 → 1 ≤ k < 65341 →
  order_body d' p' sinml' cosml' m (k, sumc, sum)
  = order_body d p sinml cosml m (k, sumc, sum).
Proof.
  intros Hm Hk. unfold order_body. cbv zeta. u32_simpl.
  rewrite cosml_cells, sinml_cells, p_cells by lia.
  rewrite !(d_rows (k + 1)) by lia. reflexivity.
Qed.

Lemma order_loop_agree n st :
  2 ≤ n ≤ 360 → st.1.1 = nm_index n 0 →
  for_loop 1 n (order_body d' p' sinml' cosml') st
  = for_loop 1 n (order_body d p sinml cosml) st.
Proof.
  intros Hn Hst.
  pose proof (nm_index_range n 0 ltac:(lia) ltac:(lia)) as Hr0.
  pose proof (nm_index_range n n ltac:(lia) ltac:(lia)) as Hrn.
  pose proof (nm_index_order n n) as Hon.
  pose proof (nm_index_double n 0) as Hd0.
  apply (for_loop_ext (λ i t, t.1.1 = nm_index n 0 + (i - 1))).
  - rewrite Hst. lia.
  - intros i [[k sc] sm] Hi Hk. cbn [fst] in Hk.
    apply order_body_agree; [lia | nia].
  - intros i [[k sc] sm] t' Hi Hk Hb. cbn [fst] in Hk.
    apply order_body_counter in Hb; [lia | nia].
Qed.

Lemma order_loop_counter n st st' :
  2 ≤ n ≤ 360 → st.1.1 = nm_index n 0 →
  for_loop 1 n (order_body d p sinml cosml) st = Some st' →
  st'.1.1 = nm_index n n.
Proof.
  intros Hn Hst Hrun.
  pose proof (nm_index_range n 0 ltac:(lia) ltac:(lia)) as Hr0.
  pose proof (nm_index_range n n ltac:(lia) ltac:(lia)) as Hrn.
  pose proof (nm_index_order n n) as Hon.
  pose proof (nm_index_double n 0) as Hd0.
  pose proof (for_loop_post (λ i t, t.1.1 = nm_index n 0 + (i - 1)) 1 n
                (order_body d p sinml cosml) st st' ltac:(lia)) as Hpost.
  cbv beta in Hpost. rewrite Hpost; [lia | lia | | exact Hrun].
  intros i [[k sc] sm] t' Hi Hk Hb. cbn [fst] in Hk.
  apply order_body_counter in Hb; [lia | nia].
Qed.

Lemma degree_body_agree ar n k arn ac a :
  2 ≤ n ≤ 360 → k = nm_index (n - 1) (n - 1) →
  degree_body d' p' sinml' cosml' ar n (k, arn, ac, a)
  = degree_body d p sinml cosml ar n (k, arn, ac, a).
Proof.
  intros Hn ->. unfold degree_body. cbv zeta.
  pose proof (nm_index_range (n - 1) (n - 1) ltac:(lia) ltac:(lia)).
  pose proof (nm_index_range n 0 ltac:(lia) ltac:(lia)).
  pose proof (nm_index_double n 0).
  u32_simpl. rewrite <- nm_index_next_degree.
  rewrite p_cells by nia.
  destruct (load p (nm_index n 0)) as [pk|]; [|reflexivity].
  cbn [mbind option_bind]. rewrite !(d_rows (nm_index n 0)) by lia.
  rewrite order_loop_agree by (lia || reflexivity). reflexivity.
Qed.

Lemma degree_body_counter ar n k arn ac a t' :
  2 ≤ n ≤ 360 → k = nm_index (n - 1) (n - 1) →
  degree_body d p sinml cosml ar n (k, arn, ac, a) = Some t' →
  t'.1.1.1 = nm_index n n.
Proof.
  intros Hn -> H. unfold degree_body in H. cbv zeta in H.
  pose proof (nm_index_range (n - 1) (n - 1) ltac:(lia) ltac:(lia)).
  revert H. u32_simpl. rewrite <- nm_index_next_degree. intros H.
  destruct (load p (nm_index n 0)) as [pk|]; [|discriminate].
  cbn [mbind option_bind] in H.
  destruct (for_loop 1 n (order_body d p sinml cosml) _)
    as [[[k' sc] sm]|] eqn:E; [|discriminate].
  cbn [mbind option_bind] in H. injection H as <-. cbn [fst].
  apply order_loop_counter in E; [exact E | lia | reflexivity].
Qed.

Lemma synthesis_loop_agree ar :
  synthesis_loop d' p' sinml' cosml' ar = synthesis_loop d p sinml cosml ar.
Proof.
  unfold synthesis_loop, maxDeg.
  apply (for_loop_ext (λ n t, t.1.1.1 = nm_index (n - 1) (n - 1))).
  - reflexivity.
  - intros n [[[k arn] ac] a] Hn Hk. cbn [fst] in Hk.
    apply degree_body_agree; assumption.
  - intros n [[[k arn] ac] a] t' Hn Hk Hb. cbn [fst] in Hk.
    replace (n + 1 - 1) with n by lia.
    apply degree_body_counter in Hb; assumption.
Qed.

Lemma synthesis_agree gr re :
  calculateGravitationalUndulation d' p' sinml' cosml' gr re
  = calculateGravitationalUndulation d p sinml cosml gr re.
Proof.
  unfold calculateGravitationalUndulation. cbv zeta.
  rewrite synthesis_loop_agree.
  rewrite !p_cells, cosml_cells, sinml_cells by lia.
  rewrite !d_rows by lia. reflexivity.
Qed.

End Reads.

(** X13.  [calculateGravitationalUndulation] reads [p] only at the cells
    [2..65341], [sinml] and [cosml] only at the cells [1..360], and the
    coefficient table only at the rows [1..65341]: arrays and tables that
    agree there give the same outcome, whatever cells 0 and 1 of [p],
    cells 0 and 361 of the series and row 0 of the table hold. *)
Theorem synthesis_reads_only_filled_cells
    (d d' : Z → Z → R) (p p' sinml sinml' cosml cosml' : array) (gr re : R) :
  (∀ k c, 1 ≤ k ≤ 65341 → d' k c = d k c) →
  (∀ k, 2 ≤ k ≤ 65341 → load p' k = load p k) →
  (∀ m, 1 ≤ m ≤ 360 → load sinml' m = load sinml m) →
  (∀ m, 1 ≤ m ≤ 360 → load cosml' m = load cosml m) →
  calculateGravitationalUndulation d' p' sinml' cosml' gr re
  = calculateGravitationalUndulation d p sinml cosml gr re.
Proof. intros Hd Hp Hs Hc. apply synthesis_agree; assumption. Qed.

Lemma synthesis_reads_only_filled_cells_witness :
  ∃ self p rleg sinml cosml v,
    EGM96_new = Some self
    ∧ for_loop 1 361 (order_fill_body self (colatitude 0 0) 361)
        (uninit coeffsCount, uninit 362) = Some (p, rleg)
    ∧ computeTrigonometricSeriesForLongitude 0 (uninit 362) (uninit 362)
      = Some (sinml, cosml)
    ∧ calculateGravitationalUndulation (λ _ _, 1%R) p sinml cosml
        (normal_gravity 0 0) (geocentric_radius 0 0) = Some v
    ∧ calculateGravitationalUndulation
        (λ k _, if Z.eqb k 0 then 0%R else 1%R)
        (upd (upd p 0 9) 1 5) (upd sinml 0 1) (upd cosml 361 1)
        (normal_gravity 0 0) (geocentric_radius 0 0) = Some v.
Proof.
  destruct EGM96_new_built as (self & Hnew & Ht).
  destruct (query_run (λ _ _, 1%R) self 0 0 Ht)
    as (p & rleg & sinml & cosml & Hfill & Htrig & Hp & _ & Hs & Hc & _).
  exists self, p, rleg, sinml, cosml. eexists.
  split; [exact Hnew|]. split; [exact Hfill|]. split; [exact Htrig|].
  split.
  - apply (synthesis_correct (λ _ _, 1%R) p sinml cosml
             (λ n m, Pbar (colatitude 0 0) m n)
             (λ m, cos (IZR m * 0)) (λ m, sin (IZR m * 0)) Hp Hs Hc).
  - rewrite (synthesis_reads_only_filled_cells (λ _ _, 1%R)
               (λ k _, if Z.eqb k 0 then 0%R else 1%R)
               p (upd (upd p 0 9) 1 5) sinml (upd sinml 0 1)
               cosml (upd cosml 361 1)).
    + apply (synthesis_correct (λ _ _, 1%R) p sinml cosml
               (λ n m, Pbar (colatitude 0 0) m n)
               (λ m, cos (IZR m * 0)) (λ m, sin (IZR m * 0)) Hp Hs Hc).
    + intros k c Hk. destruct (Z.eqb_spec k 0); [lia | reflexivity].
    + intros k Hk. rewrite !load_upd_ne by lia. reflexivity.
    + intros m Hm. apply load_upd_ne. lia.
    + intros m Hm. apply load_upd_ne. lia.
Defined.

(** X14.  A query reads the coefficient table only at the rows
    [1..65341], inside its [coeffsCount = 65342] rows: two tables that
    agree on these rows give the same value at every latitude and
    longitude. *)
Theorem query_reads_table_rows_1_to_65341 (d d' : Z → Z → R) :
  (∀ k c, 1 ≤ k ≤ 65341 → d' k c = d k c) →
  65341 < coeffsCount ∧
  ∃ self, EGM96_new = Some self ∧
  ∀ lat lon, ∃ v,
    calculateGeoidUndulationAtCoordinates d self lat lon = Some v
    ∧ calculateGeoidUndulationAtCoordinates d' self lat lon = Some v.
Proof.
  intros Hd. split; [reflexivity|].
  destruct EGM96_new_built as (self & Hnew & Ht).
  exists self. split; [exact Hnew|]. intros lat lon.
  exists (geoid_undulation d lat lon).
  split; [apply query_value; exact Ht|].
  rewrite <- (query_value d self lat lon Ht).
  destruct (query_run d self lat lon Ht)
    as (p & rleg & sinml & cosml & Hfill & Htrig & _ & _ & _ & _ & ->).
  rewrite (query_phases d' self lat lon p rleg sinml cosml Hfill Htrig).
  apply synthesis_agree; [exact Hd | | |]; intros; reflexivity.
Qed.

Lemma query_reads_table_rows_1_to_65341_witness :
  ∃ self v,
    EGM96_new = Some self
    ∧ calculateGeoidUndulationAtCoordinates zero_table self 0 0 = Some v
    ∧ calculateGeoidUndulationAtCoordinates
        (λ k c, if Z.eqb k 0 then 1%R else 0%R) self 0 0 = Some v.
Proof.
  destruct (query_reads_table_rows_1_to_65341 zero_table
              (λ k c, if Z.eqb k 0 then 1%R else 0%R))
    as (_ & self & Hnew & H).
  - intros k c Hk. destruct (Z.eqb_spec k 0); [lia | reflexivity].
  - destruct (H 0%R 0%R) as (v & H1 & H2).
    exists self, v. split; [exact Hnew|]. split; [exact H1 | exact H2].
Defined.

(** ** Latitudes outside [[-90°, 90°]] *)

Lemma metrics_latitude_period lat lon :
  computeGeocentricMetrics (lat + 2 * PI) lon = computeGeocentricMetrics lat lon.
Proof.
  unfold computeGeocentricMetrics. rewrite sin_plus_2PI, cos_plus_2PI.
  reflexivity.
Qed.

Lemma metrics_latitude_supplement lat lon :
  computeGeocentricMetrics (PI - lat) lon = computeGeocentricMetrics lat lon.
Proof.
  unfold computeGeocentricMetrics. cbv zeta.
  rewrite sin_PI_x, Rtrigo_facts.cos_pi_minus.
  rewrite !horizontal_square.
  set (n := (6378137.0
             / sqrt (1.0 - 0.00669437999013 * (sin lat * sin lat)))%R).
  replace (n * - cos lat * (n * - cos lat))%R
    with (n * cos lat * (n * cos lat))%R by ring.
  reflexivity.
Qed.

Lemma query_latitude_period egm96Data self lat lon :
  calculateGeoidUndulationAtCoordinates egm96Data self (lat + 2 * PI) lon
  = calculateGeoidUndulationAtCoordinates egm96Data self lat lon.
Proof.
  unfold calculateGeoidUndulationAtCoordinates.
  rewrite metrics_latitude_period. reflexivity.
Qed.

Lemma query_latitude_supplement egm96Data self lat lon :
  calculateGeoidUndulationAtCoordinates egm96Data self (PI - lat) lon
  = calculateGeoidUndulationAtCoordinates egm96Data self lat lon.
Proof.
  unfold calculateGeoidUndulationAtCoordinates.
  rewrite metrics_latitude_supplement. reflexivity.
Qed.

(** X15.  The latitude enters a query through its sine and cosine only,
    and the cosine through its square: the query at [lat + 360°] and the
    query at [180° - lat], same longitude, return the value of the query
    at [lat].  A latitude of 100° is thus answered as 80°. *)
Theorem latitude_out_of_range_folds_back (egm96Data : Z → Z → R) :
  ∃ self, EGM96_new = Some self ∧
  ∀ lat lon, ∃ v,
    egm96ComputeAltitudeOffset egm96Data self lat lon = Some (v, self)
    ∧ egm96ComputeAltitudeOffset egm96Data self (lat + 360) lon
      = Some (v, self)
    ∧ egm96ComputeAltitudeOffset egm96Data self (180 - lat) lon
      = Some (v, self).
Proof.
  destruct EGM96_new_built as (self & Hnew & Ht).
  exists self. split; [exact Hnew|].
  intros lat lon. eexists. split; [apply entry_value; exact Ht|].
  rewrite <- (entry_value egm96Data self lat lon Ht).
  unfold egm96ComputeAltitudeOffset. cbv zeta. split.
  - rewrite degrees_full_turn, query_latitude_period. reflexivity.
  - replace ((180 - lat) / (180.0 / M_PI))%R
      with (PI - lat / (180.0 / M_PI))%R.
    + rewrite query_latitude_supplement. reflexivity.
    + unfold M_PI. replace 180.0%R with 180%R by lra.
      pose proof PI_neq0 as H. field. exact H.
Qed.
